From Stdlib Require Import ZArith List String Ascii Lia Bool QArith Qround.
From Stdlib Require Import DecimalString DecimalZ DecimalPos Sorted Permutation.
From stdpp Require Import base tactics option list sorting gmap strings.
#[local] Arguments String.append !_ _ / : simpl nomatch.
#[local] Set Warnings "-clear-no-such-hyp".

(** * JavaScript built-ins the repository relies on *)
Module Js.

(* what an awaited call gives: a value, or a thrown Error with its message *)
Inductive Result (A : Type) : Type :=
| Ok (value : A)
| Throw (message : string).
Arguments Ok {A} value.
Arguments Throw {A} message.

Lemma append_nil_r (s : string) : s +:+ EmptyString = s.
Proof. induction s as [|a s IH]; simpl; [reflexivity | now rewrite IH]. Qed.

Lemma append_assoc (s1 s2 s3 : string) : (s1 +:+ s2) +:+ s3 = s1 +:+ (s2 +:+ s3).
Proof. induction s1 as [|a s1 IH]; simpl; [reflexivity | now rewrite IH]. Qed.

(* a JavaScript number: NaN, an infinity, or a finite value, here a rational *)
Inductive number :=
| NaN
| Infinity (negative : bool)
| Finite (q : Q).

(* Array.prototype.join *)
Fixpoint join (sep : string) (l : list string) : string :=
  match l with
  | [] => EmptyString
  | [x] => x
  | x :: rest => x +:+ sep +:+ join sep rest
  end.

(* String(n) and JSON.stringify(n) for an integral number n *)
Definition String_of_Z (z : Z) : string := NilZero.string_of_int (Z.to_int z).

(* Array.prototype.sort with a comparator. The built-in is a stable sort;
   for a comparator that is a total preorder every stable sort returns the
   same list, and this insertion sort is one. *)
Section Sort.
Context {A : Type} (cmp : A -> A -> Z).

Fixpoint insert (x : A) (l : list A) : list A :=
  match l with
  | [] => [x]
  | y :: l' => if (cmp x y <=? 0)%Z then x :: y :: l' else y :: insert x l'
  end.

Definition sort (l : list A) : list A := foldr insert [] l.

Definition cmp_le (x y : A) : Prop := (cmp x y <= 0)%Z.

Lemma insert_Permutation x l : insert x l ≡ₚ x :: l.
Proof.
  induction l as [|y l IH]; simpl; [done|].
  destruct (cmp x y <=? 0)%Z; [done|]. rewrite IH. apply Permutation_swap.
Qed.

Lemma sort_Permutation l : sort l ≡ₚ l.
Proof.
  induction l as [|x l IH]; simpl; [done|].
  rewrite insert_Permutation. by rewrite IH.
Qed.

Lemma sort_length l : length (sort l) = length l.
Proof. apply Permutation_length, sort_Permutation. Qed.

Hypothesis cmp_total : forall x y, (cmp x y <= 0)%Z \/ (cmp y x <= 0)%Z.

Lemma insert_Sorted x l : Sorted cmp_le l -> Sorted cmp_le (insert x l).
Proof.
  induction 1 as [|y l Hl IH Hy]; simpl.
  - repeat constructor.
  - destruct (Z.leb_spec (cmp x y) 0) as [Hxy|Hxy].
    + constructor; [by constructor|]. by constructor.
    + constructor; [done|].
      assert (cmp_le y x) by (destruct (cmp_total y x); [done | unfold cmp_le in *; lia]).
      destruct Hy as [|z l Hyz]; simpl; [by constructor|].
      destruct (cmp x z <=? 0)%Z; by constructor.
Qed.

Lemma sort_Sorted l : Sorted cmp_le (sort l).
Proof.
  induction l as [|x l IH]; simpl; [constructor | by apply insert_Sorted].
Qed.

Hypothesis cmp_trans : forall x y z,
  (cmp x y <= 0)%Z -> (cmp y z <= 0)%Z -> (cmp x z <= 0)%Z.

(* any two orderings of the same elements sort to the same list, as long as
   the comparator tells the elements apart *)
Lemma sort_unique l1 l2 :
  (forall x y, x ∈ l1 -> y ∈ l1 -> (cmp x y <= 0)%Z -> (cmp y x <= 0)%Z -> x = y) ->
  l1 ≡ₚ l2 -> sort l1 = sort l2.
Proof.
  intros Hanti Hperm.
  assert (Transitive cmp_le) by (intros x y z; apply cmp_trans).
  apply (Sorted_unique_strong cmp_le); [|apply sort_Sorted..|].
  - intros x y Hx Hy. apply Hanti.
    + by rewrite sort_Permutation in Hx.
    + by rewrite sort_Permutation, <- Hperm in Hy.
  - by rewrite !sort_Permutation.
Qed.

Lemma sort_of_Sorted l : Sorted cmp_le l -> sort l = l.
Proof.
  induction 1 as [|x l Hl IH Hx]; simpl; [done|].
  rewrite IH. destruct Hx as [|y l Hxy]; simpl; [done|].
  unfold cmp_le in Hxy. by destruct (Z.leb_spec (cmp x y) 0); [|lia].
Qed.
End Sort.

Lemma Sorted_weaken {A : Type} (R R' : A -> A -> Prop) l :
  (forall a b, R a b -> R' a b) -> Sorted R l -> Sorted R' l.
Proof.
  intros HR. induction 1 as [|x l Hl IH Hx]; constructor; [done|].
  destruct Hx; constructor; auto.
Qed.

(* sorting commutes with a map that the comparators cannot see *)
Lemma sort_map {A B : Type} (cmpA : A -> A -> Z) (cmpB : B -> B -> Z) (f : A -> B) l :
  (forall x y, cmpB (f x) (f y) = cmpA x y) ->
  sort cmpB (map f l) = map f (sort cmpA l).
Proof.
  intros Hf. induction l as [|x l IH]; simpl; [done|]. rewrite IH.
  generalize (sort cmpA l) as s. intros s.
  induction s as [|y s IHs]; simpl; [done|].
  rewrite Hf. destruct (cmpA x y <=? 0)%Z; simpl; [done | by rewrite IHs].
Qed.

End Js.


(** * utils/hash.ts *)
Module Hash.
Import Js.

(** JSON-like values. Numbers are the integral ones (the payloads this
    repository hashes carry counts and version tags); an object is the list
    of its entries in the order Object.entries gives them, its keys distinct. *)
#[local] Unset Elimination Schemes.
Inductive Json :=
| JNull
| JBool (b : bool)
| JNumber (z : Z)
| JString (s : string)
| JArray (items : list Json)
| JObject (entries : list (string * Json)).
#[local] Set Elimination Schemes.

Section JsonInd.
Variable P : Json -> Prop.
Hypothesis Hnull : P JNull.
Hypothesis Hbool : forall b, P (JBool b).
Hypothesis Hnumber : forall z, P (JNumber z).
Hypothesis Hstring : forall s, P (JString s).
Hypothesis Harray : forall items, Forall P items -> P (JArray items).
Hypothesis Hobject : forall entries, Forall (fun e => P (snd e)) entries -> P (JObject entries).

Fixpoint Json_ind (v : Json) : P v :=
  match v with
  | JNull => Hnull
  | JBool b => Hbool b
  | JNumber z => Hnumber z
  | JString s => Hstring s
  | JArray items =>
      Harray items
        ((fix go (l : list Json) : Forall P l :=
            match l with
            | [] => List.Forall_nil P
            | x :: l' => @List.Forall_cons _ P x l' (Json_ind x) (go l')
            end) items)
  | JObject entries =>
      Hobject entries
        ((fix go (l : list (string * Json)) : Forall (fun e => P (snd e)) l :=
            match l with
            | [] => List.Forall_nil _
            | e :: l' => @List.Forall_cons _ (fun e => P (snd e)) e l' (Json_ind (snd e)) (go l')
            end) entries)
  end.
End JsonInd.

Definition dquote : ascii := "034"%char.
Definition backslash : ascii := "092"%char.

Definition hexDigit (n : N) : ascii :=
  ascii_of_N (if (n <? 10)%N then 48 + n else 87 + n).

(* QuoteJSONString, one character: the two-character escapes, the six
   character escape for the other control characters, anything else as is *)
Definition escapeChar (c : ascii) : string :=
  let n := N_of_ascii c in
  if (n =? 8)%N then String backslash "b"
  else if (n =? 9)%N then String backslash "t"
  else if (n =? 10)%N then String backslash "n"
  else if (n =? 12)%N then String backslash "f"
  else if (n =? 13)%N then String backslash "r"
  else if (n =? 34)%N then String backslash (String dquote EmptyString)
  else if (n =? 92)%N then String backslash (String backslash EmptyString)
  else if (n <? 32)%N then
    String backslash (String "u" (String "0" (String "0"
      (String (hexDigit (n / 16)) (String (hexDigit (n mod 16)) EmptyString)))))
  else String c EmptyString.

Fixpoint escapeString (s : string) : string :=
  match s with
  | EmptyString => EmptyString
  | String c rest => escapeChar c +:+ escapeString rest
  end.

(* JSON.stringify of a string *)
Definition quote (s : string) : string :=
  String dquote (escapeString s +:+ String dquote EmptyString).

(* JSON.stringify of a value that is null or not an object *)
Definition stringifyPrimitive (v : Json) : string :=
  match v with
  | JNull => "null"
  | JBool true => "true"
  | JBool false => "false"
  | JNumber z => String_of_Z z
  | JString s => quote s
  | _ => EmptyString
  end.


(** ** The printer can be read back: serialize is one-to-one *)
Section Decoding.

Definition unhex (c : ascii) : option N :=
  let n := N_of_ascii c in
  if ((48 <=? n) && (n <=? 57))%N then Some (n - 48)%N
  else if ((97 <=? n) && (n <=? 102))%N then Some (n - 87)%N
  else None.

(* reads one escaped character back *)
Definition unescape1 (s : string) : option (ascii * string) :=
  match s with
  | EmptyString => None
  | String c rest =>
      if Ascii.eqb c dquote then None
      else if Ascii.eqb c backslash then
        match rest with
        | String e rest' =>
            if Ascii.eqb e "b" then Some ("008"%char, rest')
            else if Ascii.eqb e "t" then Some ("009"%char, rest')
            else if Ascii.eqb e "n" then Some ("010"%char, rest')
            else if Ascii.eqb e "f" then Some ("012"%char, rest')
            else if Ascii.eqb e "r" then Some ("013"%char, rest')
            else if Ascii.eqb e dquote then Some (dquote, rest')
            else if Ascii.eqb e backslash then Some (backslash, rest')
            else if Ascii.eqb e "u" then
              match rest' with
              | String _ (String _ (String h1 (String h2 r))) =>
                  match unhex h1, unhex h2 with
                  | Some a, Some b => Some (ascii_of_N (16 * a + b), r)
                  | _, _ => None
                  end
              | _ => None
              end
            else None
        | EmptyString => None
        end
      else Some (c, rest)
  end.

Lemma unescape1_escapeChar c r : unescape1 (escapeChar c +:+ r) = Some (c, r).
Proof. destruct c as [[] [] [] [] [] [] [] []]; reflexivity. Qed.

Lemma escapeString_inj s1 : forall s2 r1 r2,
  escapeString s1 +:+ String dquote r1 = escapeString s2 +:+ String dquote r2 ->
  s1 = s2 /\ r1 = r2.
Proof.
  induction s1 as [|c1 s1 IH]; intros [|c2 s2] r1 r2 H; simpl in H.
  - by injection H as ->.
  - apply (f_equal unescape1) in H. rewrite append_assoc, unescape1_escapeChar in H.
    discriminate.
  - apply (f_equal unescape1) in H. rewrite append_assoc, unescape1_escapeChar in H.
    discriminate.
  - apply (f_equal unescape1) in H.
    rewrite !append_assoc, !unescape1_escapeChar in H.
    injection H as -> H. by destruct (IH _ _ _ H) as [-> ->].
Qed.

Lemma quote_inj s1 s2 r1 r2 :
  quote s1 +:+ r1 = quote s2 +:+ r2 -> s1 = s2 /\ r1 = r2.
Proof.
  unfold quote. simpl. rewrite !append_assoc. simpl.
  intros H. injection H as H. by apply escapeString_inj.
Qed.

Definition isDigit (c : ascii) : bool :=
  let n := N_of_ascii c in ((48 <=? n) && (n <=? 57))%N.

Definition isDelim (c : ascii) : bool :=
  Ascii.eqb c "," || Ascii.eqb c "]" || Ascii.eqb c "}".

(* what may follow a printed value: nothing, a comma or a closing bracket *)
Definition delim (r : string) : Prop :=
  match r with
  | EmptyString => True
  | String c _ => isDelim c = true
  end.

Definition noDigit (r : string) : Prop :=
  match r with
  | EmptyString => True
  | String c _ => isDigit c = false
  end.

Lemma delim_noDigit r : delim r -> noDigit r.
Proof.
  destruct r as [|c r]; [done|]. simpl. unfold isDelim.
  intros [[->%Ascii.eqb_eq| ->%Ascii.eqb_eq]%orb_true_iff| ->%Ascii.eqb_eq]%orb_true_iff;
    reflexivity.
Qed.

Lemma uint_digits_inj u1 : forall u2 r1 r2,
  NilEmpty.string_of_uint u1 +:+ r1 = NilEmpty.string_of_uint u2 +:+ r2 ->
  noDigit r1 -> noDigit r2 -> u1 = u2 /\ r1 = r2.
Proof.
  induction u1 as [|u1 IH|u1 IH|u1 IH|u1 IH|u1 IH|u1 IH|u1 IH|u1 IH|u1 IH|u1 IH];
    intros [|u2|u2|u2|u2|u2|u2|u2|u2|u2|u2] r1 r2 H H1 H2; simpl in H;
    try done;
    try (injection H as H; by destruct (IH _ _ _ H H1 H2) as [-> ->]);
    try (subst; simpl in *; discriminate).
Qed.

Lemma uint_head u : u <> Decimal.Nil ->
  exists c s, NilEmpty.string_of_uint u = String c s /\ isDigit c = true.
Proof. destruct u; [done|..]; intros _; simpl; eauto. Qed.

Lemma String_of_Z_inj z1 z2 r1 r2 :
  String_of_Z z1 +:+ r1 = String_of_Z z2 +:+ r2 ->
  noDigit r1 -> noDigit r2 -> z1 = z2 /\ r1 = r2.
Proof.
  unfold String_of_Z. intros H H1 H2.
  assert (Hnn : forall z, match Z.to_int z with
                          | Decimal.Pos u | Decimal.Neg u => u <> Decimal.Nil end).
  { intros [|p|p]; simpl; [done|apply Unsigned.to_uint_nonnil..]. }
  assert (Hz : forall u, u <> Decimal.Nil ->
            NilZero.string_of_uint u = NilEmpty.string_of_uint u)
    by (by intros []).
  pose proof (Hnn z1) as N1. pose proof (Hnn z2) as N2.
  enough (Z.to_int z1 = Z.to_int z2 /\ r1 = r2) as [E ->].
  { split; [|done]. by rewrite <- (DecimalZ.of_to z1), E, DecimalZ.of_to. }
  destruct (Z.to_int z1) as [u1|u1], (Z.to_int z2) as [u2|u2]; simpl in H;
    rewrite ?(Hz _ N1), ?(Hz _ N2) in H.
  - by destruct (uint_digits_inj _ _ _ _ H H1 H2) as [-> ->].
  - destruct (uint_head _ N1) as (c & s & E & Hc). rewrite E in H. simpl in H.
    injection H as -> _. discriminate.
  - destruct (uint_head _ N2) as (c & s & E & Hc). rewrite E in H. simpl in H.
    injection H as <- _. discriminate.
  - injection H as H. by destruct (uint_digits_inj _ _ _ _ H H1 H2) as [-> ->].
Qed.

Lemma String_of_Z_head z :
  exists c s, String_of_Z z = String c s /\ (isDigit c = true \/ c = "-"%char).
Proof.
  unfold String_of_Z.
  assert (Hu : forall u, exists c s,
             NilZero.string_of_uint u = String c s /\ isDigit c = true)
    by (intros []; simpl; eauto).
  destruct (Z.to_int z) as [u|u]; simpl.
  - destruct (Hu u) as (c & s & -> & Hc). eauto.
  - eauto.
Qed.

End Decoding.

Section Canonicalize.
(* String.prototype.localeCompare, as a comparator on keys *)
Variable localeCompare : string -> string -> Z.
(* createHash(algorithm).update(text).digest(hex) *)
Variable digest : string -> string -> string.

Definition compareKeys {V : Type} (a b : string * V) : Z :=
  localeCompare (fst a) (fst b).

Definition serializeEntry (e : string * string) : string :=
  quote (fst e) +:+ ":" +:+ snd e.

(* The entries are canonicalized first and sorted by key afterwards; the
   source sorts first. The comparator reads keys only, so the two orders
   of work agree: see canonicalize_object. *)
Fixpoint canonicalize (value : Json) : string :=
  match value with
  | JArray items => "[" +:+ join "," (map canonicalize items) +:+ "]"
  | JObject entries =>
      "{" +:+ join "," (map serializeEntry
               (sort compareKeys (map (fun e => (fst e, canonicalize (snd e))) entries)))
          +:+ "}"
  | _ => stringifyPrimitive value
  end.

Definition checksumFrom (value : Json) (algorithm : string) : string :=
  digest algorithm (canonicalize value).

Definition sha256 : string := "sha256".

(* the same printer with the entries taken in the order they come *)
Fixpoint serialize (value : Json) : string :=
  match value with
  | JArray items => "[" +:+ join "," (map serialize items) +:+ "]"
  | JObject entries =>
      "{" +:+ join "," (map (fun e => serializeEntry (fst e, serialize (snd e))) entries) +:+ "}"
  | _ => stringifyPrimitive value
  end.

(* the value with the entries of every object sorted by key *)
Fixpoint normalize (value : Json) : Json :=
  match value with
  | JArray items => JArray (map normalize items)
  | JObject entries =>
      JObject (sort compareKeys (map (fun e => (fst e, normalize (snd e))) entries))
  | _ => value
  end.


(** serialize is one-to-one, also in front of whatever may follow a value *)
Definition tagOf (v : Json) : nat :=
  match v with
  | JNull => 0 | JBool _ => 1 | JNumber _ => 2
  | JString _ => 3 | JArray _ => 4 | JObject _ => 5
  end.

Definition tagOfChar (c : ascii) : option nat :=
  if isDigit c || Ascii.eqb c "-" then Some 2
  else if Ascii.eqb c "n" then Some 0
  else if Ascii.eqb c "t" || Ascii.eqb c "f" then Some 1
  else if Ascii.eqb c dquote then Some 3
  else if Ascii.eqb c "[" then Some 4
  else if Ascii.eqb c "{" then Some 5
  else None.

Lemma tagOfChar_not_delim c n : tagOfChar c = Some n -> isDelim c = false.
Proof. destruct c as [[] [] [] [] [] [] [] []]; (discriminate || reflexivity). Qed.

Lemma serialize_head v r :
  exists c s, serialize v +:+ r = String c s /\ tagOfChar c = Some (tagOf v).
Proof.
  destruct v as [|[]|z|s|items|entries]; simpl; eauto.
  destruct (String_of_Z_head z) as (c & s & -> & Hc). simpl.
  exists c, (s +:+ r). split; [done|]. unfold tagOfChar.
  destruct Hc as [-> | ->]; reflexivity.
Qed.

Lemma join_cons_app sep x l R :
  join sep (x :: l) +:+ R
  = x +:+ match l with [] => R | _ => sep +:+ (join sep l +:+ R) end.
Proof. destruct l; simpl; [done | by rewrite !append_assoc]. Qed.

Section JoinClose.
Context {A : Type} (pr : A -> string) (close : ascii).
Hypothesis close_delim : isDelim close = true.
Hypothesis close_not_comma : close <> ","%char.
Hypothesis pr_head : forall y t, exists c s, pr y +:+ t = String c s /\ isDelim c = false.

Definition readsBack (x : A) : Prop :=
  forall y t1 t2, pr x +:+ t1 = pr y +:+ t2 -> delim t1 -> delim t2 -> x = y /\ t1 = t2.

Lemma close_not_head y t r : String close r <> pr y +:+ t.
Proof.
  destruct (pr_head y t) as (c & s & -> & Hc). intros [= <- _]. congruence.
Qed.

Lemma joinClose_inj l1 :
  Forall readsBack l1 ->
  forall l2 r1 r2,
    join "," (map pr l1) +:+ String close r1 = join "," (map pr l2) +:+ String close r2 ->
    l1 = l2 /\ r1 = r2.
Proof.
  induction 1 as [|x l1 Hx Hl1 IH]; intros [|y l2] r1 r2 H.
  - simpl in H. by injection H as ->.
  - exfalso. simpl map in H. rewrite join_cons_app in H. simpl in H.
    by apply close_not_head in H.
  - exfalso. simpl map in H. rewrite join_cons_app in H. simpl in H.
    symmetry in H. by apply close_not_head in H.
  - simpl map in H. rewrite !join_cons_app in H.
    assert (D : forall (l : list string) r,
              delim match l with [] => String close r | _ => "," +:+ (join "," l +:+ String close r) end)
      by (intros [|? ?] ?; simpl; done).
    destruct (Hx _ _ _ H (D _ _) (D _ _)) as [<- H'].
    destruct l1 as [|x1 l1], l2 as [|y1 l2]; simpl map in H'; cbv iota in H'.
    + by injection H' as ->.
    + simpl in H'. injection H' as ? _. done.
    + simpl in H'. injection H' as ? _. done.
    + apply (inj (String.append ",")) in H'.
      by destruct (IH (y1 :: l2) _ _ H') as [-> ->].
Qed.
End JoinClose.

Lemma serialize_same_tag v1 v2 r1 r2 :
  serialize v1 +:+ r1 = serialize v2 +:+ r2 -> tagOf v1 = tagOf v2.
Proof.
  intros H.
  destruct (serialize_head v1 r1) as (c1 & s1 & E1 & T1).
  destruct (serialize_head v2 r2) as (c2 & s2 & E2 & T2).
  rewrite E1, E2 in H. injection H as -> _. congruence.
Qed.

Theorem serialize_inj v1 : forall v2 r1 r2,
  serialize v1 +:+ r1 = serialize v2 +:+ r2 -> delim r1 -> delim r2 ->
  v1 = v2 /\ r1 = r2.
Proof.
  induction v1 as [|b1|z1|s1|items1 IH|entries1 IH] using Json_ind;
    intros v2 r1 r2 H D1 D2;
    pose proof (serialize_same_tag _ _ _ _ H) as Htag;
    destruct v2 as [|b2|z2|s2|items2|entries2]; try discriminate Htag; clear Htag.
  - simpl in H. by injection H as ->.
  - destruct b1, b2; simpl in H; try discriminate; by injection H as ->.
  - simpl in H. apply String_of_Z_inj in H as [-> ->]; auto using delim_noDigit.
  - simpl in H. by apply quote_inj in H as [-> ->].
  - simpl in H. rewrite !append_assoc in H. simpl in H. injection H as H.
    apply (joinClose_inj serialize "]") in H as [-> ->]; try done.
    intros y t. destruct (serialize_head y t) as (c & s & -> & Hc).
    eauto using tagOfChar_not_delim.
  - simpl in H. rewrite !append_assoc in H. simpl in H. injection H as H.
    apply (joinClose_inj (fun e => serializeEntry (fst e, serialize (snd e))) "}")
      in H as [-> ->]; try done.
    + intros y t. unfold serializeEntry, quote. simpl. eauto.
    + eapply Forall_impl; [exact IH|]. intros [k1 x1] Hx [k2 x2] t1 t2.
      simpl in Hx. unfold serializeEntry. simpl fst. simpl snd. rewrite !append_assoc.
      intros [-> E]%quote_inj T1 T2. simpl in E. injection E as E.
      by destruct (Hx _ _ _ E T1 T2) as [-> ->].
Qed.

Lemma canonicalize_object entries :
  canonicalize (JObject entries)
  = "{" +:+ join "," (map (fun e => quote (fst e) +:+ ":" +:+ canonicalize (snd e))
                        (sort compareKeys entries)) +:+ "}".
Proof.
  simpl. do 2 f_equal.
  rewrite (sort_map compareKeys compareKeys (fun e => (fst e, canonicalize (snd e)))) by done.
  rewrite map_map. reflexivity.
Qed.

Lemma canonicalize_normalize value : canonicalize value = serialize (normalize value).
Proof.
  induction value as [| | | |items IH|entries IH] using Json_ind; try reflexivity.
  - simpl. do 2 f_equal. rewrite map_map. f_equal.
    induction IH as [|x l Hx _ IHl]; simpl; [done | by rewrite Hx, IHl].
  - simpl. do 2 f_equal.
    rewrite <- (map_map (fun e => (fst e, serialize (snd e))) serializeEntry).
    rewrite <- (sort_map compareKeys compareKeys
                 (fun e => (fst e, serialize (snd e)))) by done.
    rewrite map_map. simpl. do 2 f_equal.
    induction IH as [|x l Hx _ IHl]; simpl; [done | by rewrite Hx, IHl].
Qed.

Lemma canonicalize_eq_iff v1 v2 :
  canonicalize v1 = canonicalize v2 <-> normalize v1 = normalize v2.
Proof.
  rewrite !canonicalize_normalize. split; [|by intros ->].
  intros H. apply (serialize_inj _ _ EmptyString EmptyString); [|done..].
  by rewrite !append_nil_r.
Qed.

(** Two values that differ only in the order of the entries of their
    objects, at any depth. *)
#[local] Unset Elimination Schemes.
Inductive reordered : Json -> Json -> Prop :=
| reordered_refl v : reordered v v
| reordered_array items1 items2 :
    Forall2 reordered items1 items2 -> reordered (JArray items1) (JArray items2)
| reordered_object entries1 entries entries2 :
    entries1 ≡ₚ entries ->
    Forall2 (fun a b => fst a = fst b /\ reordered (snd a) (snd b)) entries entries2 ->
    reordered (JObject entries1) (JObject entries2).

(** The keys of an object are distinct, at any depth. *)
Inductive wellFormed : Json -> Prop :=
| wf_null : wellFormed JNull
| wf_bool b : wellFormed (JBool b)
| wf_number z : wellFormed (JNumber z)
| wf_string s : wellFormed (JString s)
| wf_array items : Forall wellFormed items -> wellFormed (JArray items)
| wf_object entries :
    NoDup (map fst entries) -> Forall (fun e => wellFormed (snd e)) entries ->
    wellFormed (JObject entries).
#[local] Set Elimination Schemes.

Lemma NoDup_fst_inj {V : Type} (l : list (string * V)) x y :
  NoDup (map fst l) -> x ∈ l -> y ∈ l -> fst x = fst y -> x = y.
Proof.
  induction l as [|e l IH]; simpl; intros Hnd Hx Hy E; [by inv Hx|].
  apply NoDup_cons in Hnd as [Hne Hnd].
  apply elem_of_cons in Hx as [->|Hx], Hy as [->|Hy]; [done| | |by apply IH].
  - exfalso. apply Hne. rewrite E. by apply (list_elem_of_fmap_2 fst).
  - exfalso. apply Hne. rewrite <- E. by apply (list_elem_of_fmap_2 fst).
Qed.

Section KeyOrder.
(* the comparator is a total preorder on keys that tells distinct keys apart *)
Hypothesis localeCompare_total :
  forall a b, (localeCompare a b <= 0)%Z \/ (localeCompare b a <= 0)%Z.
Hypothesis localeCompare_trans :
  forall a b c, (localeCompare a b <= 0)%Z -> (localeCompare b c <= 0)%Z ->
                (localeCompare a c <= 0)%Z.
Hypothesis localeCompare_antisym :
  forall a b, (localeCompare a b <= 0)%Z -> (localeCompare b a <= 0)%Z -> a = b.

Lemma sort_entries_Permutation {V : Type} (l1 l2 : list (string * V)) :
  NoDup (map fst l1) -> l1 ≡ₚ l2 -> sort compareKeys l1 = sort compareKeys l2.
Proof.
  intros Hnd Hp. apply sort_unique; [| |by intros; eapply NoDup_fst_inj; eauto|done].
  - intros x y. apply localeCompare_total.
  - intros x y z. apply localeCompare_trans.
Qed.

Lemma normalize_reordered v1 : forall v2,
  wellFormed v1 -> reordered v1 v2 -> normalize v1 = normalize v2.
Proof.
  induction v1 as [| | | |items1 IH|entries1 IH] using Json_ind;
    intros v2 Hwf Hr; inv Hr; try done.
  - inv Hwf. simpl. f_equal.
    match goal with H : Forall2 reordered _ _ |- _ => rename H into F end.
    match goal with H : Forall wellFormed _ |- _ => rename H into W end.
    induction F as [|x y l1 l2 Hxy F IHF]; [done|].
    inv IH. inv W. simpl. f_equal; auto.
  - inv Hwf. simpl. f_equal.
    match goal with H : _ ≡ₚ _ |- _ => rename H into Hp end.
    match goal with H : Forall2 _ _ _ |- _ => rename H into F end.
    match goal with H : NoDup _ |- _ => rename H into Hnd end.
    match goal with H : Forall (fun e => wellFormed _) _ |- _ => rename H into W end.
    rewrite (sort_entries_Permutation _ (map (fun e => (fst e, normalize (snd e))) entries)).
    + f_equal. rewrite Hp in IH, W. clear Hp Hnd.
      induction F as [|[k1 x] [k2 y] l1 l2 [Hk Hxy] F IHF]; [done|].
      inv IH. inv W. simpl in *. subst k2. f_equal; [f_equal|]; auto.
    + by rewrite map_map.
    + by apply Permutation_map.
Qed.

Lemma canonicalize_reordered v1 v2 :
  wellFormed v1 -> reordered v1 v2 -> canonicalize v1 = canonicalize v2.
Proof. intros W R. apply canonicalize_eq_iff. by apply normalize_reordered. Qed.

End KeyOrder.
End Canonicalize.

(** An instance: keys compared by their code units, the text itself as its digest. *)
Definition codeUnitCompare (a b : string) : Z :=
  match String.compare a b with Lt => -1 | Eq => 0 | Gt => 1 end.

Lemma codeUnitCompare_le a b : (codeUnitCompare a b <= 0)%Z <-> String.le a b.
Proof.
  unfold codeUnitCompare, String.le, String.leb.
  destruct (String.compare a b); simpl; split; (done || lia).
Qed.

Definition textDigest (algorithm text : string) : string := text.

Definition obj_ab : Json := JObject [("a", JNumber 1); ("b", JNumber 2)].
Definition obj_ba : Json := JObject [("b", JNumber 2); ("a", JNumber 1)].


End Hash.


(** * csv/writer.ts *)
Module Csv.
Import Js.

Definition comma : ascii := ","%char.
Definition LF : ascii := "010"%char.
Definition CR : ascii := "013"%char.
Definition dquote : ascii := "034"%char.
Definition space : ascii := " "%char.

Fixpoint includes (c : ascii) (s : string) : bool :=
  match s with
  | EmptyString => false
  | String a rest => Ascii.eqb a c || includes c rest
  end.

(* value.replace(/\r?\n/g, ' '): every LF, together with a CR just before it, becomes one space *)
Fixpoint replaceNewlines (s : string) : string :=
  match s with
  | EmptyString => EmptyString
  | String a rest =>
      if Ascii.eqb a LF then String space (replaceNewlines rest)
      else if Ascii.eqb a CR then
        match rest with
        | String b rest' =>
            if Ascii.eqb b LF then String space (replaceNewlines rest')
            else String a (replaceNewlines rest)
        | EmptyString => String a EmptyString
        end
      else String a (replaceNewlines rest)
  end.

(* the second replace: every double quote is doubled *)
Fixpoint doubleQuotes (s : string) : string :=
  match s with
  | EmptyString => EmptyString
  | String a rest =>
      if Ascii.eqb a dquote then String dquote (String dquote (doubleQuotes rest))
      else String a (doubleQuotes rest)
  end.

Definition needsQuotes (value : string) : bool :=
  includes comma value || includes LF value || includes dquote value.

Definition csvEscape (value : string) : string :=
  let sanitized := doubleQuotes (replaceNewlines value) in
  if needsQuotes value then String dquote (sanitized +:+ String dquote EmptyString)
  else sanitized.


Record CsvRow := {
  timestamp : Z;
  iso_date : string;
  iso_year : string;
  category : string;
  sentiment_keyword : string;
  sentiment_number : Z;
  category_confidence : string;
  sentiment_confidence : string;
  summary : string;
  subreddit : string;
  comment_link : string
}.

Definition HEADER : list string :=
  [ "timestamp"; "iso_date"; "iso_year"; "category"; "sentiment_keyword";
    "sentiment_number"; "category_confidence"; "sentiment_confidence";
    "summary"; "subreddit"; "comment_link" ].

(* HEADER.map((key) => String(row[key] ?? '')) : the eleven cells in header order *)
Definition rowValues (row : CsvRow) : list string :=
  [ String_of_Z (timestamp row); iso_date row; iso_year row; category row;
    sentiment_keyword row; String_of_Z (sentiment_number row);
    category_confidence row; sentiment_confidence row; summary row;
    subreddit row; comment_link row ].


Definition rowLine (row : CsvRow) : string :=
  join (String comma EmptyString) (map csvEscape (rowValues row)).

(* The write stream is modelled by the text written to it so far. *)
Definition WriteStream := string.

Definition create : WriteStream :=
  join (String comma EmptyString) HEADER +:+ String LF EmptyString.

Definition writeRow (stream : WriteStream) (row : CsvRow) : WriteStream :=
  stream +:+ (rowLine row +:+ String LF EmptyString).

Definition writeRows (stream : WriteStream) (rows : list CsvRow) : WriteStream :=
  fold_left writeRow rows stream.

(* A reader for the RFC 4180 grammar with LF as the record terminator:
   a cell that opens with a double quote runs to the matching double quote,
   a doubled double quote inside it stands for one; any other cell runs to
   the next comma or LF. CR is ordinary cell content. *)
Inductive pmode := FieldStart | InUnquoted | InQuoted | AfterQuote.

Definition snoc (s : string) (a : ascii) : string := s +:+ String a EmptyString.

Fixpoint parseGo (m : pmode) (cur : string) (fields : list string)
    (recs : list (list string)) (s : string) : option (list (list string)) :=
  match s with
  | EmptyString =>
      match m with
      | InQuoted => None
      | FieldStart =>
          match fields with
          | [] => Some (rev recs)
          | _ => Some (rev (rev (cur :: fields) :: recs))
          end
      | _ => Some (rev (rev (cur :: fields) :: recs))
      end
  | String a rest =>
      match m with
      | FieldStart =>
          if Ascii.eqb a dquote then parseGo InQuoted EmptyString fields recs rest
          else if Ascii.eqb a comma then parseGo FieldStart EmptyString (EmptyString :: fields) recs rest
          else if Ascii.eqb a LF then parseGo FieldStart EmptyString [] (rev (EmptyString :: fields) :: recs) rest
          else parseGo InUnquoted (String a EmptyString) fields recs rest
      | InUnquoted =>
          if Ascii.eqb a dquote then None
          else if Ascii.eqb a comma then parseGo FieldStart EmptyString (cur :: fields) recs rest
          else if Ascii.eqb a LF then parseGo FieldStart EmptyString [] (rev (cur :: fields) :: recs) rest
          else parseGo InUnquoted (snoc cur a) fields recs rest
      | InQuoted =>
          if Ascii.eqb a dquote then parseGo AfterQuote cur fields recs rest
          else parseGo InQuoted (snoc cur a) fields recs rest
      | AfterQuote =>
          if Ascii.eqb a dquote then parseGo InQuoted (snoc cur a) fields recs rest
          else if Ascii.eqb a comma then parseGo FieldStart EmptyString (cur :: fields) recs rest
          else if Ascii.eqb a LF then parseGo FieldStart EmptyString [] (rev (cur :: fields) :: recs) rest
          else None
      end
  end.

Definition parseCsv (s : string) : option (list (list string)) :=
  parseGo FieldStart EmptyString [] [] s.


Lemma includes_app c s1 s2 : includes c (s1 +:+ s2) = includes c s1 || includes c s2.
Proof.
  induction s1 as [|a s1 IH]; simpl; [reflexivity|].
  rewrite IH. now rewrite orb_assoc.
Qed.

Lemma replaceNewlines_cons a v :
  replaceNewlines (String a v) = String space (replaceNewlines v) \/
  replaceNewlines (String a v) = String a (replaceNewlines v) /\ Ascii.eqb a LF = false \/
  exists v', v = String LF v' /\ a = CR /\
             replaceNewlines (String a v) = String space (replaceNewlines v').
Proof.
  simpl. destruct (Ascii.eqb a LF) eqn:Ea; [now left|].
  destruct (Ascii.eqb a CR) eqn:Ec; [|now right; left].
  apply Ascii.eqb_eq in Ec. subst a.
  destruct v as [|b v]; [now right; left|].
  destruct (Ascii.eqb b LF) eqn:Eb; [|now right; left].
  apply Ascii.eqb_eq in Eb. subst b. right; right. now exists v.
Qed.

Lemma replaceNewlines_no_LF v : includes LF (replaceNewlines v) = false.
Proof.
  enough (H : includes LF (replaceNewlines v) = false /\
              forall a, includes LF (replaceNewlines (String a v)) = false) by apply H.
  induction v as [|b v [IH1 IH2]].
  - split; [reflexivity|]. intros a.
    destruct (replaceNewlines_cons a EmptyString) as [-> | [[-> Ea] | (v' & Hv & _)]];
      simpl; [reflexivity | now rewrite Ea | discriminate].
  - split; [apply IH2|]. intros a.
    destruct (replaceNewlines_cons a (String b v)) as [-> | [[-> Ea] | (v' & Hv & _ & ->)]].
    + simpl includes at 1. apply IH2.
    + simpl includes at 1. rewrite Ea. apply IH2.
    + injection Hv as _ <-. simpl includes at 1. apply IH1.
Qed.

Lemma replaceNewlines_id v : includes LF v = false -> replaceNewlines v = v.
Proof.
  induction v as [|a v IH]; [reflexivity|]. simpl includes.
  intros [Ea Hv]%orb_false_elim. specialize (IH Hv).
  simpl. rewrite Ea, IH.
  destruct (Ascii.eqb a CR); [|reflexivity].
  destruct v as [|b v]; [reflexivity|].
  simpl in Hv. apply orb_false_elim in Hv as [-> _]. reflexivity.
Qed.

Lemma doubleQuotes_no_LF v : includes LF v = false -> includes LF (doubleQuotes v) = false.
Proof.
  induction v as [|a v IH]; [reflexivity|]. simpl.
  intros [Ea Hv]%orb_false_elim.
  destruct (Ascii.eqb a dquote) eqn:Eq; simpl.
  - apply Ascii.eqb_eq in Eq. subst a. now apply IH.
  - rewrite Ea. now apply IH.
Qed.

Lemma doubleQuotes_id v : includes dquote v = false -> doubleQuotes v = v.
Proof.
  induction v as [|a v IH]; [reflexivity|]. simpl.
  intros [Ea Hv]%orb_false_elim. rewrite Ea. now rewrite IH.
Qed.

Lemma csvEscape_no_LF v : includes LF (csvEscape v) = false.
Proof.
  unfold csvEscape.
  pose proof (doubleQuotes_no_LF _ (replaceNewlines_no_LF v)) as H.
  destruct (needsQuotes v); [|exact H].
  simpl. rewrite includes_app, H. reflexivity.
Qed.

Lemma csvEscape_plain v : needsQuotes v = false -> csvEscape v = v.
Proof.
  unfold csvEscape, needsQuotes. intros H. rewrite H.
  apply orb_false_elim in H as [[_ Hl]%orb_false_elim Hq].
  now rewrite (replaceNewlines_id _ Hl), (doubleQuotes_id _ Hq).
Qed.

(* reading a cell *)
Lemma parse_unquoted v : forall cur fields recs rest,
  includes comma v = false -> includes LF v = false -> includes dquote v = false ->
  parseGo InUnquoted cur fields recs (v +:+ rest)
  = parseGo InUnquoted (cur +:+ v) fields recs rest.
Proof.
  induction v as [|a v IH]; intros cur fields recs rest Hc Hl Hq.
  - simpl. now rewrite append_nil_r.
  - simpl in Hc, Hl, Hq.
    apply orb_false_elim in Hc as [Hc Hc'], Hl as [Hl Hl'], Hq as [Hq Hq'].
    simpl. rewrite Hq, Hc, Hl. rewrite IH by assumption.
    unfold snoc. now rewrite append_assoc.
Qed.

Lemma parse_quoted w : forall cur fields recs rest,
  parseGo InQuoted cur fields recs (doubleQuotes w +:+ String dquote rest)
  = parseGo AfterQuote (cur +:+ w) fields recs rest.
Proof.
  induction w as [|a w IH]; intros cur fields recs rest.
  - simpl. rewrite ?Ascii.eqb_refl. now rewrite append_nil_r.
  - simpl. destruct (Ascii.eqb a dquote) eqn:Ea.
    + apply Ascii.eqb_eq in Ea. subst a. simpl. rewrite ?Ascii.eqb_refl.
      rewrite IH. unfold snoc. now rewrite append_assoc.
    + simpl. rewrite Ea, IH. unfold snoc. now rewrite append_assoc.
Qed.

(* what the reader has in hand after a cell and the separator that follows it *)
Definition afterCell (sep : ascii) (cell : string) (fields : list string)
    (recs : list (list string)) (rest : string) : option (list (list string)) :=
  if Ascii.eqb sep comma then parseGo FieldStart EmptyString (cell :: fields) recs rest
  else parseGo FieldStart EmptyString [] (rev (cell :: fields) :: recs) rest.

Lemma parse_cell v sep fields recs rest :
  sep = comma \/ sep = LF ->
  parseGo FieldStart EmptyString fields recs (csvEscape v +:+ String sep rest)
  = afterCell sep (replaceNewlines v) fields recs rest.
Proof.
  intros Hsep. unfold afterCell.
  assert (Hsq : Ascii.eqb sep dquote = false) by (destruct Hsep; subst; reflexivity).
  assert (Hsl : Ascii.eqb sep comma = false -> Ascii.eqb sep LF = true)
    by (destruct Hsep; subst; [discriminate | reflexivity]).
  destruct (needsQuotes v) eqn:Hn.
  - unfold csvEscape. rewrite Hn. simpl. rewrite append_assoc. simpl.
    rewrite parse_quoted. simpl. rewrite Hsq.
    destruct (Ascii.eqb sep comma) eqn:Hc; [reflexivity|]. now rewrite Hsl.
  - rewrite (csvEscape_plain _ Hn).
    unfold needsQuotes in Hn.
    apply orb_false_elim in Hn as [[Hc Hl]%orb_false_elim Hq].
    rewrite (replaceNewlines_id _ Hl).
    destruct v as [|a v].
    + simpl. rewrite Hsq.
      destruct (Ascii.eqb sep comma) eqn:Hc'; [reflexivity|]. now rewrite Hsl.
    + simpl in Hc, Hl, Hq.
      apply orb_false_elim in Hc as [Hc Hc'], Hl as [Hl Hl'], Hq as [Hq Hq'].
      simpl. rewrite Hq, Hc, Hl. rewrite parse_unquoted by assumption.
      simpl. rewrite Hsq.
      destruct (Ascii.eqb sep comma) eqn:Hc''; [reflexivity|]. now rewrite Hsl.
Qed.

Definition sep_comma : string := String comma EmptyString.

Lemma parse_row vs : forall fields recs rest,
  vs <> [] ->
  parseGo FieldStart EmptyString fields recs
    (join sep_comma (map csvEscape vs) +:+ String LF rest)
  = parseGo FieldStart EmptyString []
      (rev (rev (map replaceNewlines vs) ++ fields) :: recs) rest.
Proof.
  induction vs as [|x vs IH]; intros fields recs rest Hne; [congruence|].
  destruct vs as [|y vs].
  - simpl join. rewrite parse_cell by now right. reflexivity.
  - change (join sep_comma (map csvEscape (x :: y :: vs)))
      with (csvEscape x +:+ sep_comma +:+ join sep_comma (map csvEscape (y :: vs))).
    rewrite !append_assoc. unfold sep_comma at 1. simpl String.append at 2.
    rewrite parse_cell by now left. unfold afterCell. simpl Ascii.eqb.
    cbv iota. rewrite IH by discriminate.
    do 3 f_equal. simpl. rewrite <- !List.app_assoc. reflexivity.
Qed.

Definition cells (row : CsvRow) : list string := map replaceNewlines (rowValues row).

Definition body (rows : list CsvRow) : string :=
  fold_right (fun r acc => (rowLine r +:+ String LF EmptyString) +:+ acc) EmptyString rows.

Lemma writeRows_body rows : forall stream, writeRows stream rows = stream +:+ body rows.
Proof.
  unfold writeRows. induction rows as [|r rows IH]; intros stream; simpl.
  - now rewrite append_nil_r.
  - rewrite IH. unfold writeRow. now rewrite !append_assoc.
Qed.

Lemma parse_body rows : forall recs,
  parseGo FieldStart EmptyString [] recs (body rows) = Some (rev recs ++ map cells rows)%list.
Proof.
  induction rows as [|r rows IH]; intros recs.
  - simpl. now rewrite List.app_nil_r.
  - simpl body. rewrite append_assoc. simpl String.append at 2.
    unfold rowLine. rewrite parse_row by discriminate.
    rewrite IH. rewrite List.app_nil_r, rev_involutive. simpl.
    rewrite <- List.app_assoc. reflexivity.
Qed.

Lemma parse_header rest :
  parseGo FieldStart EmptyString [] [] (create +:+ rest)
  = parseGo FieldStart EmptyString [] [HEADER] rest.
Proof. reflexivity. Qed.

Lemma join_no_LF vs :
  Forall (fun v => includes LF v = false) vs -> includes LF (join sep_comma vs) = false.
Proof.
  induction 1 as [|x vs Hx Hvs IH]; [reflexivity|].
  destruct vs as [|y vs]; [exact Hx|].
  change (join sep_comma (x :: y :: vs)) with (x +:+ sep_comma +:+ join sep_comma (y :: vs)).
  now rewrite !includes_app, Hx, IH.
Qed.

Lemma rowLine_no_LF row : includes LF (rowLine row) = false.
Proof.
  apply join_no_LF. unfold rowValues.
  repeat (constructor; [apply csvEscape_no_LF|]). constructor.
Qed.


Definition value_with_line_feed : string := String "a" (String LF "b").



End Csv.


(** * cache/cache.ts and the file cache *)
Module Cache.
Import Js.

(* Record<string, unknown>; None stands for an undefined field *)
Definition Metadata := list (string * option Hash.Json).

Record CacheEntry := {
  checksum : string;
  storedAt : string;
  metadata : option Metadata;
  body : string
}.

Record CacheWriteInput := {
  w_checksum : string;
  w_body : string;
  w_metadata : option Metadata
}.

(* interface CacheClient, over the state S of the store behind it *)
Class CacheClient (S : Type) := {
  read : S -> string -> string -> Result (option CacheEntry);
  write : S -> string -> CacheWriteInput -> Result S
}.

(* the contract of the store: an entry written is the entry read, and a
   write leaves every other key as it was *)
Class CacheLaws (S : Type) `{CacheClient S} := {
  read_write_same : forall s s' namespace w,
    write s namespace w = Ok s' ->
    exists e, read s' namespace (w_checksum w) = Ok (Some e)
              /\ checksum e = w_checksum w /\ body e = w_body w;
  read_write_other : forall s s' namespace w namespace' checksum',
    write s namespace w = Ok s' ->
    (namespace', checksum') <> (namespace, w_checksum w) ->
    read s' namespace' checksum' = read s namespace' checksum'
}.

(* FileCache: under the base directory, one body file and one metadata file
   per namespace and checksum. A file that is not there is ENOENT, which
   read turns into null; no other I/O error is modelled. *)
Record MetadataFile := {
  m_storedAt : string;
  m_metadata : option Metadata
}.

Record FileCache := {
  bodyFiles : gmap (string * string) string;
  metaFiles : gmap (string * string) MetadataFile;
  isoNow : string   (* what new Date().toISOString() gives *)
}.

Definition FileCache_read (fc : FileCache) (namespace checksum : string)
    : Result (option CacheEntry) :=
  match bodyFiles fc !! (namespace, checksum), metaFiles fc !! (namespace, checksum) with
  | Some b, Some meta =>
      Ok (Some {| checksum := checksum; body := b;
                  storedAt := m_storedAt meta; metadata := m_metadata meta |})
  | _, _ => Ok None
  end.

Definition FileCache_write (fc : FileCache) (namespace : string) (entry : CacheWriteInput)
    : Result FileCache :=
  let meta := {| m_storedAt := isoNow fc; m_metadata := w_metadata entry |} in
  Ok {| bodyFiles := <[(namespace, w_checksum entry) := w_body entry]> (bodyFiles fc);
        metaFiles := <[(namespace, w_checksum entry) := meta]> (metaFiles fc);
        isoNow := isoNow fc |}.

#[export] Instance FileCache_client : CacheClient FileCache :=
  {| read := FileCache_read; write := FileCache_write |}.

#[export] Instance FileCache_laws : CacheLaws FileCache.
Proof.
  split.
  - intros s s' namespace w [= <-]. eexists. split.
    + unfold read, FileCache_client, FileCache_read. simpl.
      rewrite !lookup_insert_eq. reflexivity.
    + done.
  - intros s s' namespace w namespace' checksum' [= <-] Hne.
    unfold read, FileCache_client, FileCache_read. simpl.
    by rewrite !lookup_insert_ne by congruence.
Qed.

Definition emptyFileCache : FileCache :=
  {| bodyFiles := ∅; metaFiles := ∅; isoNow := "2024-01-01T00:00:00.000Z" |}.

End Cache.


(** * analysis/llmCache.ts *)
Module LlmCache.
Import Js Hash Cache.

(* what a call does to the outside, in the order it does it *)
Inductive Event :=
| CacheRead (namespace checksum : string) (hit : bool)
| Compute
| CacheWrite (namespace checksum body : string).

Definition defaultNamespace : string := "openai-responses".

Fixpoint lookupKey (key : string) (entries : list (string * Json)) : option Json :=
  match entries with
  | [] => None
  | (k, v) :: rest => if String.eqb k key then Some v else lookupKey key rest
  end.

Definition describePayload (payload : Json) : option string :=
  match payload with
  | JObject entries =>
      match lookupKey "type" entries with
      | Some (JString t) => Some t
      | _ => None
      end
  | _ => None
  end.

Section GetOrCompute.
Variable localeCompare : string -> string -> Z.
Variable digest : string -> string -> string.
Context {S : Type} `{CacheClient S}.
(* the service behind compute, and the results it gives *)
Variables World T : Type.
Variable JSON_stringify : T -> string.
Variable JSON_parse : string -> Result T.

Record State := {
  cache : S;
  world : World;
  log : list Event
}.

Definition checksumOf (payload : Json) : string :=
  checksumFrom localeCompare digest payload sha256.

Definition writeInput (payload : Json) (result : T) : CacheWriteInput :=
  {| w_checksum := checksumOf payload;
     w_body := JSON_stringify result;
     w_metadata := Some [("payloadType", JString <$> describePayload payload)] |}.

Definition getOrCompute (namespace : string) (payload : Json)
    (compute : World -> Result T * World) (st : State) : Result T * State :=
  let checksum := checksumOf payload in
  match read (cache st) namespace checksum with
  | Throw e => (Throw e, st)
  | Ok (Some cached) =>
      (JSON_parse (body cached),
       {| cache := cache st; world := world st;
          log := log st ++ [CacheRead namespace checksum true] |})
  | Ok None =>
      let log1 := log st ++ [CacheRead namespace checksum false; Compute] in
      match compute (world st) with
      | (Throw e, w) => (Throw e, {| cache := cache st; world := w; log := log1 |})
      | (Ok result, w) =>
          let input := writeInput payload result in
          match write (cache st) namespace input with
          | Throw e => (Throw e, {| cache := cache st; world := w; log := log1 |})
          | Ok cache' =>
              (Ok result,
               {| cache := cache'; world := w;
                  log := log1 ++ [CacheWrite namespace checksum (w_body input)] |})
          end
      end
  end.

Definition computeCalls (events : list Event) : nat :=
  length (List.filter (fun e => match e with Compute => true | _ => false end) events).

Definition cacheWrites (events : list Event) : nat :=
  length (List.filter (fun e => match e with CacheWrite _ _ _ => true | _ => false end) events).

Context `{!CacheLaws S}.

Lemma getOrCompute_miss namespace payload compute st r w c :
  read (cache st) namespace (checksumOf payload) = Ok None ->
  compute (world st) = (Ok r, w) ->
  write (cache st) namespace (writeInput payload r) = Ok c ->
  getOrCompute namespace payload compute st
  = (Ok r, {| cache := c; world := w;
              log := (log st ++ [CacheRead namespace (checksumOf payload) false; Compute])
                     ++ [CacheWrite namespace (checksumOf payload) (JSON_stringify r)] |}).
Proof. intros Hr Hc Hw. unfold getOrCompute. by rewrite Hr, Hc, Hw. Qed.

Lemma getOrCompute_hit namespace payload compute st e :
  read (cache st) namespace (checksumOf payload) = Ok (Some e) ->
  getOrCompute namespace payload compute st
  = (JSON_parse (body e),
     {| cache := cache st; world := world st;
        log := log st ++ [CacheRead namespace (checksumOf payload) true] |}).
Proof. intros Hr. unfold getOrCompute. by rewrite Hr. Qed.

Lemma checksumOf_differs payload payload' :
  normalize localeCompare payload' <> normalize localeCompare payload ->
  (checksumOf payload' = checksumOf payload ->
   canonicalize localeCompare payload' = canonicalize localeCompare payload) ->
  checksumOf payload' <> checksumOf payload.
Proof. intros Hn Hcol E. by apply Hn, canonicalize_eq_iff, Hcol. Qed.

End GetOrCompute.

Arguments cache {S World} s.
Arguments world {S World} s.
Arguments log {S World} s.

(* a service that counts its calls, in front of an empty file cache *)
Definition sampleState : State (S := FileCache) nat :=
  {| cache := emptyFileCache; world := 0%nat; log := [] |}.

Definition sampleCompute (w : nat) : Result string * nat := (Ok "r", S w).

Definition twice : Result string * State (S := FileCache) nat :=
  let call := getOrCompute codeUnitCompare textDigest nat string id Ok
                defaultNamespace obj_ab sampleCompute in
  call (snd (call sampleState)).


End LlmCache.


(** * utils/time.ts *)
Module Time.
Import Js.
Local Open Scope Z_scope.

(** ** toUnixSeconds *)

(* Math.floor *)
Definition Math_floor (x : number) : number :=
  match x with
  | Finite q => Finite (inject_Z (Qfloor q))
  | _ => x
  end.

Definition Number_isNaN (x : number) : bool :=
  match x with NaN => true | _ => false end.

(* x / 1000 *)
Definition divideBy1000 (x : number) : number :=
  match x with
  | Finite q => Finite (q / 1000)%Q
  | _ => x
  end.

(* the built-ins the function calls, in the order it calls them *)
Inductive Call :=
| CallNumber (text : string)
| CallDateParse (text : string).

Section ToUnixSeconds.
(* Number(text) and Date.parse(text) *)
Variable Number : string -> number.
Variable Date_parse : string -> number.

Definition toUnixSeconds (value : string + number) : Result number * list Call :=
  match value with
  | inr n => (Ok (Math_floor n), [])
  | inl text =>
      let asNumber := Number text in
      if negb (Number_isNaN asNumber) then (Ok (Math_floor asNumber), [CallNumber text])
      else
        let parsed := Date_parse text in
        if Number_isNaN parsed
        then (Throw ("Unable to parse time value: " +:+ text),
              [CallNumber text; CallDateParse text])
        else (Ok (Math_floor (divideBy1000 parsed)),
              [CallNumber text; CallDateParse text])
  end.

(** C10. A string that Number turns into anything but NaN gives the floor
    of that number, and Date.parse is not called; this covers the empty
    string and the string 2017 once Number gives 0 and 2017 for them, as
    the built-in does. Date.parse is called exactly for the strings that
    Number turns into NaN, and when it gives NaN too the function throws. *)
Theorem toUnixSeconds_numeric_first :
  (forall text, Number_isNaN (Number text) = false ->
     toUnixSeconds (inl text) = (Ok (Math_floor (Number text)), [CallNumber text]))
  /\ (Number "" = Finite 0 -> fst (toUnixSeconds (inl "")) = Ok (Finite 0))
  /\ (Number "2017" = Finite 2017 -> fst (toUnixSeconds (inl "2017")) = Ok (Finite 2017))
  /\ (forall text, Number_isNaN (Number text) = true ->
        snd (toUnixSeconds (inl text)) = [CallNumber text; CallDateParse text])
  /\ (forall text, In (CallDateParse text) (snd (toUnixSeconds (inl text))) ->
        Number_isNaN (Number text) = true)
  /\ (forall text, Number_isNaN (Number text) = true ->
        Number_isNaN (Date_parse text) = true ->
        fst (toUnixSeconds (inl text)) = Throw ("Unable to parse time value: " +:+ text))
  /\ (forall text, Number_isNaN (Number text) = true ->
        Number_isNaN (Date_parse text) = false ->
        fst (toUnixSeconds (inl text)) = Ok (Math_floor (divideBy1000 (Date_parse text)))).
Proof.
  repeat split.
  - intros text H. unfold toUnixSeconds. by rewrite H.
  - intros H. unfold toUnixSeconds. by rewrite H.
  - intros H. unfold toUnixSeconds. by rewrite H.
  - intros text H. unfold toUnixSeconds. rewrite H. simpl.
    by destruct (Number_isNaN (Date_parse text)).
  - intros text. unfold toUnixSeconds.
    destruct (Number_isNaN (Number text)); [done|]. simpl. by intros [|[]].
  - intros text H1 H2. unfold toUnixSeconds. by rewrite H1, H2.
  - intros text H1 H2. unfold toUnixSeconds. by rewrite H1, H2.
Qed.
End ToUnixSeconds.

(* stand-ins for the two built-ins, right on the few strings they know *)
Definition sampleNumber (text : string) : number :=
  if String.eqb text "" then Finite 0
  else if String.eqb text "2017" then Finite 2017
  else NaN.

Definition sampleDateParse (text : string) : number :=
  if String.eqb text "2017-01-01T00:00:00Z" then Finite 1483228800000 else NaN.

Lemma toUnixSeconds_numeric_first_witness :
  toUnixSeconds sampleNumber sampleDateParse (inl "2017")
    = (Ok (Math_floor (sampleNumber "2017")), [CallNumber "2017"])
  /\ fst (toUnixSeconds sampleNumber sampleDateParse (inl "")) = Ok (Finite 0)
  /\ fst (toUnixSeconds sampleNumber sampleDateParse (inl "soon"))
     = Throw "Unable to parse time value: soon"
  /\ snd (toUnixSeconds sampleNumber sampleDateParse (inl "2017-01-01T00:00:00Z"))
     = [CallNumber "2017-01-01T00:00:00Z"; CallDateParse "2017-01-01T00:00:00Z"].
Proof.
  pose proof (toUnixSeconds_numeric_first sampleNumber sampleDateParse)
    as (A & B & _ & D & _ & F & _).
  split; [|split; [|split]].
  - apply A. reflexivity.
  - apply B. reflexivity.
  - apply (F "soon"); reflexivity.
  - apply D. reflexivity.
Defined.


(** ** Date, as ECMAScript defines it (section 21.4.1)
    A time value is a whole number of milliseconds since the epoch, at most
    8.64e15 in absolute value, or NaN for an Invalid Date: Some t or None. *)

Definition msPerDay : Z := 86400000.
Definition maxTime : Z := 8640000000000000.

Definition Day (t : Z) : Z := t / msPerDay.
Definition TimeWithinDay (t : Z) : Z := t mod msPerDay.

Definition DaysInYear (y : Z) : Z :=
  if negb (y mod 4 =? 0) then 365
  else if negb (y mod 100 =? 0) then 366
  else if negb (y mod 400 =? 0) then 365
  else 366.

Definition DayFromYear (y : Z) : Z :=
  365 * (y - 1970) + (y - 1969) / 4 - (y - 1901) / 100 + (y - 1601) / 400.

(* the year a day falls in: the largest y with DayFromYear y <= d, found
   from the mean length of a year and put right by at most one year *)
Definition YearFromDay (d : Z) : Z :=
  let y0 := 1970 + (400 * d) / 146097 in
  if d <? DayFromYear y0 then y0 - 1
  else if DayFromYear (y0 + 1) <=? d then y0 + 1
  else y0.

Definition YearFromTime (t : Z) : Z := YearFromDay (Day t).

Definition InLeapYear (y : Z) : Z := if DaysInYear y =? 366 then 1 else 0.

Definition DayWithinYear (t : Z) : Z := Day t - DayFromYear (YearFromTime t).

(* the day of the year on which month m (0 to 11) begins; month 12 is the end of the year *)
Definition monthStart (leap m : Z) : Z :=
  if m <=? 0 then 0
  else if m =? 1 then 31
  else if m =? 2 then 59 + leap
  else if m =? 3 then 90 + leap
  else if m =? 4 then 120 + leap
  else if m =? 5 then 151 + leap
  else if m =? 6 then 181 + leap
  else if m =? 7 then 212 + leap
  else if m =? 8 then 243 + leap
  else if m =? 9 then 273 + leap
  else if m =? 10 then 304 + leap
  else if m =? 11 then 334 + leap
  else 365 + leap.

Definition monthOfDay (leap d : Z) : Z :=
  if d <? 31 then 0
  else if d <? 59 + leap then 1
  else if d <? 90 + leap then 2
  else if d <? 120 + leap then 3
  else if d <? 151 + leap then 4
  else if d <? 181 + leap then 5
  else if d <? 212 + leap then 6
  else if d <? 243 + leap then 7
  else if d <? 273 + leap then 8
  else if d <? 304 + leap then 9
  else if d <? 334 + leap then 10
  else 11.

Definition MonthFromTime (t : Z) : Z :=
  monthOfDay (InLeapYear (YearFromTime t)) (DayWithinYear t).

Definition DateFromTime (t : Z) : Z :=
  DayWithinYear t - monthStart (InLeapYear (YearFromTime t)) (MonthFromTime t) + 1.

Definition MakeDay (year month date : Z) : Z :=
  let ym := year + month / 12 in
  let mn := month mod 12 in
  DayFromYear ym + monthStart (InLeapYear ym) mn + date - 1.

Definition MakeDate (day time : Z) : Z := day * msPerDay + time.

Definition TimeClip (v : Z) : option Z :=
  if Z.abs v <=? maxTime then Some v else None.

Definition Date := option Z.

(* new Date(ms) *)
Definition newDate (ms : Z) : Date := TimeClip ms.

(* a < b on two dates or two numbers: false as soon as one of them is NaN *)
Definition lessThan (a b : option Z) : bool :=
  match a, b with
  | Some x, Some y => x <? y
  | _, _ => false
  end.

Definition lessOrEqual (a b : option Z) : bool :=
  match a, b with
  | Some x, Some y => x <=? y
  | _, _ => false
  end.

(* Math.floor(date.getTime() / 1000) *)
Definition getTimeSeconds (d : Date) : option Z := (fun t => t / 1000) <$> d.

(* date.setUTCMonth(month), for a whole month number *)
Definition setUTCMonth (d : Date) (month : option Z) : Date :=
  match d, month with
  | Some t, Some m =>
      TimeClip (MakeDate (MakeDay (YearFromTime t) m (DateFromTime t)) (TimeWithinDay t))
  | _, _ => None
  end.

Definition getUTCMonth (d : Date) : option Z := MonthFromTime <$> d.

Definition addMonths (date : Date) (months : Z) : Date :=
  let result := date in
  let targetMonth := (fun m => m + months) <$> getUTCMonth result in
  setUTCMonth result targetMonth.

(** ** splitIntoMonthlyRanges *)

(* start and end are numbers: Some n, or None for NaN *)
Record EpochRange := {
  start : option Z;
  end_ : option Z
}.

(* the while loop; fuel bounds the number of turns *)
Fixpoint splitLoop (fuel : nat) (endDate : Date) (monthsPerBatch : Z)
    (cursor : Date) (ranges : list EpochRange) : option (list EpochRange) :=
  if lessThan cursor endDate then
    match fuel with
    | O => None
    | S fuel' =>
        let chunkStart := getTimeSeconds cursor in
        let chunkEndDate := addMonths cursor monthsPerBatch in
        let boundedEnd := if lessThan endDate chunkEndDate then endDate else chunkEndDate in
        let chunkEnd := getTimeSeconds boundedEnd in
        if lessOrEqual chunkEnd chunkStart then Some ranges
        else splitLoop fuel' endDate monthsPerBatch boundedEnd
               (ranges ++ [{| start := chunkStart; end_ := chunkEnd |}])
    end
  else Some ranges.

(* the block after the loop *)
Definition closeRanges (startEpoch endEpoch : Z) (ranges : list EpochRange)
    : list EpochRange :=
  match last ranges with
  | None =>
      let previousEnd := startEpoch in
      if previousEnd <? endEpoch
      then ranges ++ [{| start := Some previousEnd; end_ := Some endEpoch |}]
      else ranges
  | Some lastRange =>
      if lessThan (end_ lastRange) (Some endEpoch) then
        let previousEnd := end_ lastRange in
        if lessThan previousEnd (Some endEpoch)
        then ranges ++ [{| start := previousEnd; end_ := Some endEpoch |}]
        else ranges
      else ranges
  end.

(* every turn of the loop but the last moves the cursor by 28 days or more *)
Definition splitFuel (startEpoch endEpoch : Z) : nat :=
  Z.to_nat ((endEpoch - startEpoch) / 2419200 + 1).

(* None: the loop was cut short by its fuel (it never is, see splitIntoMonthlyRanges_total) *)
Definition splitIntoMonthlyRanges (startEpoch endEpoch monthsPerBatch : Z)
    : option (Result (list EpochRange)) :=
  if monthsPerBatch <=? 0 then Some (Throw "monthsPerBatch must be greater than 0")
  else if endEpoch <=? startEpoch then Some (Ok [])
  else
    let startDate := newDate (startEpoch * 1000) in
    let endDate := newDate (endEpoch * 1000) in
    match splitLoop (splitFuel startEpoch endEpoch) endDate monthsPerBatch startDate [] with
    | None => None
    | Some ranges => Some (Ok (closeRanges startEpoch endEpoch ranges))
    end.


(** ** The calendar *)

Lemma DayFromYear_succ y : DayFromYear (y + 1) = DayFromYear y + DaysInYear y.
Proof.
  unfold DayFromYear, DaysInYear.
  assert (A4 : (y + 1 - 1969) / 4 - (y - 1969) / 4 = if y mod 4 =? 0 then 1 else 0).
  { destruct (Z.eqb_spec (y mod 4) 0); Z.div_mod_to_equations; lia. }
  assert (A100 : (y + 1 - 1901) / 100 - (y - 1901) / 100 = if y mod 100 =? 0 then 1 else 0).
  { destruct (Z.eqb_spec (y mod 100) 0); Z.div_mod_to_equations; lia. }
  assert (A400 : (y + 1 - 1601) / 400 - (y - 1601) / 400 = if y mod 400 =? 0 then 1 else 0).
  { destruct (Z.eqb_spec (y mod 400) 0); Z.div_mod_to_equations; lia. }
  assert (B1 : y mod 100 = 0 -> y mod 4 = 0) by (Z.div_mod_to_equations; lia).
  assert (B2 : y mod 400 = 0 -> y mod 100 = 0) by (Z.div_mod_to_equations; lia).
  destruct (Z.eqb_spec (y mod 4) 0), (Z.eqb_spec (y mod 100) 0),
    (Z.eqb_spec (y mod 400) 0); cbv [negb] in *; lia.
Qed.

(* YearFromDay is the year of the day *)
Lemma YearFromDay_spec d :
  DayFromYear (YearFromDay d) <= d < DayFromYear (YearFromDay d + 1).
Proof.
  unfold YearFromDay.
  destruct (Z.ltb_spec d (DayFromYear (1970 + 400 * d / 146097))) as [H1|H1].
  - replace (1970 + 400 * d / 146097 - 1 + 1) with (1970 + 400 * d / 146097) by lia.
    split; [|lia]. clear H1. unfold DayFromYear. Z.div_mod_to_equations. lia.
  - destruct (Z.leb_spec (DayFromYear (1970 + 400 * d / 146097 + 1)) d) as [H2|H2].
    + split; [lia|]. clear H1 H2. unfold DayFromYear. Z.div_mod_to_equations. lia.
    + lia.
Qed.

Lemma DaysInYear_leap y :
  DaysInYear y = 365 + InLeapYear y /\ (InLeapYear y = 0 \/ InLeapYear y = 1).
Proof.
  unfold InLeapYear, DaysInYear.
  destruct (y mod 4 =? 0), (y mod 100 =? 0), (y mod 400 =? 0); cbv; auto.
Qed.

Lemma DayWithinYear_range t :
  0 <= DayWithinYear t < 365 + InLeapYear (YearFromTime t).
Proof.
  unfold DayWithinYear, YearFromTime.
  pose proof (YearFromDay_spec (Day t)) as H.
  rewrite DayFromYear_succ in H.
  destruct (DaysInYear_leap (YearFromDay (Day t))) as [E _]. lia.
Qed.

Ltac split_ltb :=
  repeat match goal with
  | |- context [(?a <? ?b)] => destruct (Z.ltb_spec a b)
  end.

(* evaluates monthStart at a month that is a numeral *)
Ltac month_norm :=
  repeat match goal with
  | |- context [monthStart ?l (?a + 1)] =>
      let v := eval vm_compute in (a + 1) in change (a + 1) with v
  end;
  unfold monthStart;
  repeat match goal with
  | |- context [Z.leb ?a ?b] =>
      let v := eval vm_compute in (Z.leb a b) in change (Z.leb a b) with v
  | |- context [Z.eqb ?a ?b] =>
      let v := eval vm_compute in (Z.eqb a b) in change (Z.eqb a b) with v
  end;
  cbv iota.

Lemma monthOfDay_spec leap d :
  leap = 0 \/ leap = 1 -> 0 <= d < 365 + leap ->
  0 <= monthOfDay leap d <= 11
  /\ monthStart leap (monthOfDay leap d) <= d < monthStart leap (monthOfDay leap d + 1).
Proof.
  intros Hl Hd. unfold monthOfDay. split_ltb; month_norm; lia.
Qed.

(* the day on which the month with index M begins, months counted from year 0 *)
Definition monthIndexDay (M : Z) : Z :=
  DayFromYear (M / 12) + monthStart (InLeapYear (M / 12)) (M mod 12).

Lemma monthIndexDay_step M : 28 <= monthIndexDay (M + 1) - monthIndexDay M <= 31.
Proof.
  unfold monthIndexDay.
  destruct (DaysInYear_leap (M / 12)) as [E L].
  destruct (Z.eq_dec (M mod 12) 11) as [H11|H11].
  - replace ((M + 1) / 12) with (M / 12 + 1) by (Z.div_mod_to_equations; lia).
    replace ((M + 1) mod 12) with 0 by (Z.div_mod_to_equations; lia).
    rewrite DayFromYear_succ, H11, E.
    month_norm. lia.
  - replace ((M + 1) / 12) with (M / 12) by (Z.div_mod_to_equations; lia).
    replace ((M + 1) mod 12) with (M mod 12 + 1) by (Z.div_mod_to_equations; lia).
    assert (Hm : 0 <= M mod 12 < 11) by (Z.div_mod_to_equations; lia).
    generalize dependent (M mod 12). intros m _ Hm.
    generalize dependent (InLeapYear (M / 12)). intros leap _ L.
    assert (C : m = 0 \/ m = 1 \/ m = 2 \/ m = 3 \/ m = 4 \/ m = 5 \/ m = 6 \/ m = 7
                \/ m = 8 \/ m = 9 \/ m = 10) by lia.
    repeat (destruct C as [->|C]; [month_norm; lia|]). subst m. month_norm. lia.
Qed.

Lemma monthIndexDay_add M n :
  0 <= n -> 28 * n <= monthIndexDay (M + n) - monthIndexDay M <= 31 * n.
Proof.
  intros Hn. pattern n. apply natlike_ind; [| |exact Hn].
  - rewrite Z.add_0_r. lia.
  - intros k Hk IH. replace (M + Z.succ k) with (M + k + 1) by lia.
    pose proof (monthIndexDay_step (M + k)). lia.
Qed.

Lemma MakeDay_monthIndexDay y m d k :
  0 <= m <= 11 -> MakeDay y (m + k) d = monthIndexDay (12 * y + m + k) + d - 1.
Proof.
  intros Hm. unfold MakeDay, monthIndexDay.
  replace ((12 * y + m + k) / 12) with (y + (m + k) / 12) by (Z.div_mod_to_equations; lia).
  replace ((12 * y + m + k) mod 12) with ((m + k) mod 12) by (Z.div_mod_to_equations; lia).
  reflexivity.
Qed.

Lemma MonthFromTime_range t : 0 <= MonthFromTime t <= 11.
Proof.
  unfold MonthFromTime.
  destruct (DaysInYear_leap (YearFromTime t)) as [_ L].
  apply monthOfDay_spec; [exact L | apply DayWithinYear_range].
Qed.

Lemma DateFromTime_range t : 1 <= DateFromTime t <= 31.
Proof.
  unfold DateFromTime, MonthFromTime.
  destruct (DaysInYear_leap (YearFromTime t)) as [_ L].
  pose proof (monthOfDay_spec _ _ L (DayWithinYear_range t)) as [Hm Hd].
  split; [lia|].
  pose proof (monthIndexDay_step (12 * YearFromTime t
                + monthOfDay (InLeapYear (YearFromTime t)) (DayWithinYear t))) as Hs.
  destruct (Z.eq_dec (monthOfDay (InLeapYear (YearFromTime t)) (DayWithinYear t)) 11) as [E|E].
  - rewrite E in *. pose proof (DayWithinYear_range t) as R. revert R Hd.
    month_norm. lia.
  - unfold monthIndexDay in Hs.
    replace ((12 * YearFromTime t
              + monthOfDay (InLeapYear (YearFromTime t)) (DayWithinYear t) + 1) / 12)
      with (YearFromTime t) in Hs by (Z.div_mod_to_equations; lia).
    replace ((12 * YearFromTime t
              + monthOfDay (InLeapYear (YearFromTime t)) (DayWithinYear t) + 1) mod 12)
      with (monthOfDay (InLeapYear (YearFromTime t)) (DayWithinYear t) + 1) in Hs
      by (Z.div_mod_to_equations; lia).
    replace ((12 * YearFromTime t
              + monthOfDay (InLeapYear (YearFromTime t)) (DayWithinYear t)) / 12)
      with (YearFromTime t) in Hs by (Z.div_mod_to_equations; lia).
    replace ((12 * YearFromTime t
              + monthOfDay (InLeapYear (YearFromTime t)) (DayWithinYear t)) mod 12)
      with (monthOfDay (InLeapYear (YearFromTime t)) (DayWithinYear t)) in Hs
      by (Z.div_mod_to_equations; lia).
    lia.
Qed.

(* a time value is the day its year, month and date make, and the time within it *)
Lemma Day_decompose t :
  Day t = monthIndexDay (12 * YearFromTime t + MonthFromTime t) + DateFromTime t - 1.
Proof.
  pose proof (MonthFromTime_range t) as Hm.
  unfold monthIndexDay.
  replace ((12 * YearFromTime t + MonthFromTime t) / 12) with (YearFromTime t)
    by (Z.div_mod_to_equations; lia).
  replace ((12 * YearFromTime t + MonthFromTime t) mod 12) with (MonthFromTime t)
    by (Z.div_mod_to_equations; lia).
  unfold DateFromTime, DayWithinYear. lia.
Qed.

(* the time value setUTCMonth computes before it clips it *)
Definition shiftedBy (t months : Z) : Z :=
  MakeDate (MakeDay (YearFromTime t) (MonthFromTime t + months) (DateFromTime t))
           (TimeWithinDay t).

(* the length in days of the [months] calendar months that begin with the month of t *)
Definition daysOfMonthsFrom (t months : Z) : Z :=
  monthIndexDay (12 * YearFromTime t + MonthFromTime t + months)
  - monthIndexDay (12 * YearFromTime t + MonthFromTime t).

Lemma shiftedBy_value t months :
  shiftedBy t months = t + msPerDay * daysOfMonthsFrom t months.
Proof.
  unfold shiftedBy, MakeDate, daysOfMonthsFrom.
  rewrite MakeDay_monthIndexDay by apply MonthFromTime_range.
  pose proof (Day_decompose t) as D. unfold Day in D.
  unfold TimeWithinDay, msPerDay in *. Z.div_mod_to_equations. lia.
Qed.

Lemma daysOfMonthsFrom_bounds t months :
  0 <= months -> 28 * months <= daysOfMonthsFrom t months <= 31 * months.
Proof. apply monthIndexDay_add. Qed.


(** ** The loop *)

Lemma addMonths_Some c months :
  addMonths (Some c) months = TimeClip (shiftedBy c months).
Proof. unfold addMonths, getUTCMonth, setUTCMonth, shiftedBy. done. Qed.

Lemma TimeClip_Some v : - maxTime <= v <= maxTime -> TimeClip v = Some v.
Proof. intros H. unfold TimeClip. destruct (Z.leb_spec (Z.abs v) maxTime); [done | lia]. Qed.

Lemma TimeClip_inv v t : TimeClip v = Some t -> t = v.
Proof. unfold TimeClip. destruct (Z.abs v <=? maxTime); congruence. Qed.

(* the turns the loop may still take, at 28 days or more a turn *)
Definition turnsLeft (cursor endDate : Date) : nat :=
  match cursor, endDate with
  | Some c, Some e => if c <? e then Z.to_nat ((e - c - 1) / 2419200000 + 1) else 0%nat
  | _, _ => 0%nat
  end.

Lemma splitLoop_turn fuel endDate months cursor ranges :
  lessThan cursor endDate = true ->
  splitLoop (S fuel) endDate months cursor ranges
  = let chunkStart := getTimeSeconds cursor in
    let chunkEndDate := addMonths cursor months in
    let boundedEnd := if lessThan endDate chunkEndDate then endDate else chunkEndDate in
    let chunkEnd := getTimeSeconds boundedEnd in
    if lessOrEqual chunkEnd chunkStart then Some ranges
    else splitLoop fuel endDate months boundedEnd
           (ranges ++ [{| start := chunkStart; end_ := chunkEnd |}]).
Proof. intros H. cbn [splitLoop]. by rewrite H. Qed.

Lemma splitLoop_stops fuel endDate months cursor ranges :
  lessThan cursor endDate = false ->
  splitLoop fuel endDate months cursor ranges = Some ranges.
Proof. intros H. destruct fuel; simpl; by rewrite H. Qed.

Lemma splitLoop_total fuel : forall endDate months cursor ranges,
  1 <= months -> (turnsLeft cursor endDate <= fuel)%nat ->
  exists result, splitLoop fuel endDate months cursor ranges = Some result.
Proof.
  induction fuel as [|fuel IH]; intros endDate months cursor ranges Hm Hf.
  - destruct (lessThan cursor endDate) eqn:Hlt; [|by rewrite splitLoop_stops; eauto].
    destruct cursor as [c|], endDate as [e|]; try discriminate. simpl in Hlt.
    unfold turnsLeft in Hf. rewrite Hlt in Hf.
    apply Z.ltb_lt in Hlt. exfalso.
    assert (0 <= (e - c - 1) / 2419200000) by (apply Z.div_pos; lia). lia.
  - destruct (lessThan cursor endDate) eqn:Hlt; [|by rewrite splitLoop_stops; eauto].
    destruct cursor as [c|], endDate as [e|]; try discriminate.
    rewrite splitLoop_turn by done. cbv zeta.
    simpl in Hlt. apply Z.ltb_lt in Hlt.
    rewrite addMonths_Some.
    destruct (TimeClip (shiftedBy c months)) as [t'|] eqn:Hclip.
    + set (boundedEnd := if lessThan (Some e) (Some t') then Some e else Some t').
      destruct (lessOrEqual (getTimeSeconds boundedEnd) (getTimeSeconds (Some c)));
        [eauto|].
      apply IH; [done|].
      apply TimeClip_inv in Hclip. rewrite shiftedBy_value in Hclip.
      pose proof (daysOfMonthsFrom_bounds c months ltac:(lia)) as Hk.
      unfold turnsLeft in *. destruct (Z.ltb_spec c e); [|lia].
      subst boundedEnd. simpl. destruct (Z.ltb_spec e t').
      * destruct (Z.ltb_spec e e); lia.
      * destruct (Z.ltb_spec t' e); [|lia].
        assert (c + 2419200000 <= t') by (unfold msPerDay in Hclip; lia).
        assert (0 <= (e - t' - 1) / 2419200000) by (apply Z.div_pos; lia).
        assert ((e - t' - 1) / 2419200000 + 1 <= (e - c - 1) / 2419200000)
          by (Z.div_mod_to_equations; lia).
        lia.
    + simpl. rewrite splitLoop_stops by done. eauto.
Qed.

(** The function returns on every input: the loop never runs out of fuel. *)
Theorem splitIntoMonthlyRanges_total startEpoch endEpoch monthsPerBatch :
  exists result, splitIntoMonthlyRanges startEpoch endEpoch monthsPerBatch = Some result.
Proof.
  unfold splitIntoMonthlyRanges.
  destruct (Z.leb_spec monthsPerBatch 0); [eauto|].
  destruct (Z.leb_spec endEpoch startEpoch); [eauto|].
  destruct (splitLoop_total (splitFuel startEpoch endEpoch) (newDate (endEpoch * 1000))
              monthsPerBatch (newDate (startEpoch * 1000)) []) as [r ->]; [lia| |eauto].
  unfold turnsLeft, newDate, splitFuel.
  destruct (TimeClip (startEpoch * 1000)) as [c|] eqn:Hc; [|lia].
  destruct (TimeClip (endEpoch * 1000)) as [e|] eqn:He; [|lia].
  apply TimeClip_inv in Hc, He. subst c e.
  destruct (Z.ltb_spec (startEpoch * 1000) (endEpoch * 1000)); [|lia].
  apply Z2Nat.inj_le; [| |].
  - assert (0 <= (endEpoch * 1000 - startEpoch * 1000 - 1) / 2419200000)
      by (apply Z.div_pos; lia). lia.
  - assert (0 <= (endEpoch - startEpoch) / 2419200) by (apply Z.div_pos; lia). lia.
  - Z.div_mod_to_equations. lia.
Qed.

(** ranges lead from [from] to [to] without a gap or an overlap, none of them
    empty, none of them running past its start moved on by [months] months *)
Fixpoint chain (from : Z) (ranges : list EpochRange) (to months : Z) : Prop :=
  match ranges with
  | [] => from = to
  | r :: rest =>
      start r = Some from /\
      exists m, end_ r = Some m /\ from < m /\
                1000 * m <= shiftedBy (1000 * from) months /\
                chain m rest to months
  end.

Section InRange.
Variables startEpoch endEpoch monthsPerBatch : Z.
Hypothesis months_positive : 1 <= monthsPerBatch.
(* every date the loop makes is inside the range of Date *)
Hypothesis start_in_range : -8639997321600 <= startEpoch.
Hypothesis end_in_range : endEpoch + 2678400 * monthsPerBatch <= 8640000000000.

Lemma splitLoop_chain fuel : forall cs acc,
  startEpoch <= cs <= endEpoch ->
  (turnsLeft (Some (1000 * cs)%Z) (Some (1000 * endEpoch)%Z) <= fuel)%nat ->
  exists new,
    splitLoop fuel (Some (1000 * endEpoch)) monthsPerBatch (Some (1000 * cs)) acc
    = Some (acc ++ new)
    /\ chain cs new endEpoch monthsPerBatch.
Proof.
  induction fuel as [|fuel IH]; intros cs acc Hcs Hf.
  - unfold turnsLeft in Hf.
    destruct (Z.ltb_spec (1000 * cs) (1000 * endEpoch)) as [Hlt|Hge].
    + exfalso.
      assert (0 <= (1000 * endEpoch - 1000 * cs - 1) / 2419200000)
        by (apply Z.div_pos; lia). lia.
    + exists []. rewrite splitLoop_stops, app_nil_r; [split; [done|simpl; lia]|].
      simpl. by apply Z.ltb_ge.
  - destruct (Z.ltb_spec (1000 * cs) (1000 * endEpoch)) as [Hlt|Hge].
    2:{ exists []. rewrite splitLoop_stops, app_nil_r; [split; [done|simpl; lia]|].
        simpl. by apply Z.ltb_ge. }
    rewrite splitLoop_turn by (by apply Z.ltb_lt). cbv zeta.
    rewrite addMonths_Some.
    pose proof (shiftedBy_value (1000 * cs) monthsPerBatch) as Hv.
    pose proof (daysOfMonthsFrom_bounds (1000 * cs) monthsPerBatch ltac:(lia)) as Hk.
    set (k := daysOfMonthsFrom (1000 * cs) monthsPerBatch) in *.
    unfold msPerDay in Hv.
    rewrite TimeClip_Some by (unfold maxTime; lia).
    set (bs := if endEpoch <? cs + 86400 * k then endEpoch else cs + 86400 * k).
    assert (Hb : (if lessThan (Some (1000 * endEpoch))
                       (Some (shiftedBy (1000 * cs) monthsPerBatch))
                  then Some (1000 * endEpoch)
                  else Some (shiftedBy (1000 * cs) monthsPerBatch))
                 = Some (1000 * bs)).
    { unfold lessThan, bs. rewrite Hv.
      destruct (Z.ltb_spec (1000 * endEpoch) (1000 * cs + 86400000 * k)),
        (Z.ltb_spec endEpoch (cs + 86400 * k)); (done || (f_equal; lia) || lia). }
    rewrite Hb. unfold getTimeSeconds. simpl fmap.
    assert (Hbs : cs < bs <= endEpoch)
      by (unfold bs; destruct (Z.ltb_spec endEpoch (cs + 86400 * k)); lia).
    replace (1000 * bs / 1000) with bs by (Z.div_mod_to_equations; lia).
    replace (1000 * cs / 1000) with cs by (Z.div_mod_to_equations; lia).
    unfold lessOrEqual. destruct (Z.leb_spec bs cs) as [|_]; [lia|].
    destruct (IH bs (acc ++ [{| start := Some cs; end_ := Some bs |}])) as (new & -> & Hch).
    + lia.
    + unfold turnsLeft in *.
      destruct (Z.ltb_spec (1000 * cs) (1000 * endEpoch)); [|lia].
      destruct (Z.ltb_spec (1000 * bs) (1000 * endEpoch)); [|lia].
      assert (bs = cs + 86400 * k)
        by (unfold bs in *; destruct (Z.ltb_spec endEpoch (cs + 86400 * k)); lia).
      assert (0 <= (1000 * endEpoch - 1000 * bs - 1) / 2419200000)
        by (apply Z.div_pos; lia).
      assert ((1000 * endEpoch - 1000 * bs - 1) / 2419200000 + 1
              <= (1000 * endEpoch - 1000 * cs - 1) / 2419200000)
        by (Z.div_mod_to_equations; lia).
      lia.
    + exists ({| start := Some cs; end_ := Some bs |} :: new).
      rewrite <- List.app_assoc. split; [done|]. simpl. split; [done|].
      exists bs. repeat split; [lia| |done].
      rewrite Hv. unfold bs. destruct (Z.ltb_spec endEpoch (cs + 86400 * k)); lia.
Qed.

Lemma chain_last from ranges to months :
  chain from ranges to months -> from < to ->
  exists r, last ranges = Some r /\ end_ r = Some to.
Proof.
  revert from. induction ranges as [|r rest IH]; intros from Hc Hlt; simpl in Hc; [lia|].
  destruct Hc as (Hs & m & He & Hm & _ & Hrest).
  destruct rest as [|r' rest'].
  - simpl in Hrest. subst m. by exists r.
  - destruct (IH m Hrest) as (r0 & Hl & Hr0).
    + destruct (Z.lt_ge_cases m to); [done|]. exfalso.
      simpl in Hrest. destruct Hrest as (_ & m' & _ & ? & _ & Hrest').
      clear -Hrest' H H0. revert m' H0 Hrest'.
      induction rest' as [|r1 rest1 IH1]; intros m' H0 Hr; simpl in Hr; [lia|].
      destruct Hr as (_ & m1 & _ & ? & _ & ?). eapply (IH1 m1); [lia|done].
    + exists r0. split; [|done]. by rewrite last_cons_cons.
Qed.

(** Inside the range of Date the claim of C3 holds: the ranges returned
    lead from startEpoch to endEpoch without a gap or an overlap, none is
    empty, and none runs past its start moved on by monthsPerBatch calendar
    months. *)
Theorem splitIntoMonthlyRanges_partitions :
  startEpoch < endEpoch ->
  exists ranges,
    splitIntoMonthlyRanges startEpoch endEpoch monthsPerBatch = Some (Ok ranges)
    /\ ranges <> []
    /\ chain startEpoch ranges endEpoch monthsPerBatch.
Proof.
  intros Hlt. unfold splitIntoMonthlyRanges.
  destruct (Z.leb_spec monthsPerBatch 0); [lia|].
  destruct (Z.leb_spec endEpoch startEpoch); [lia|].
  unfold newDate. rewrite !TimeClip_Some by (unfold maxTime; lia).
  rewrite !(Z.mul_comm _ 1000).
  destruct (splitLoop_chain (splitFuel startEpoch endEpoch) startEpoch [])
    as (ranges & -> & Hch); [lia| |].
  { unfold turnsLeft, splitFuel.
    destruct (Z.ltb_spec (1000 * startEpoch) (1000 * endEpoch)); [|lia].
    apply Z2Nat.inj_le.
    - assert (0 <= (1000 * endEpoch - 1000 * startEpoch - 1) / 2419200000)
        by (apply Z.div_pos; lia). lia.
    - assert (0 <= (endEpoch - startEpoch) / 2419200) by (apply Z.div_pos; lia). lia.
    - Z.div_mod_to_equations. lia. }
  simpl app. exists ranges.
  destruct (chain_last _ _ _ _ Hch Hlt) as (r & Hl & Hr).
  unfold closeRanges. rewrite Hl, Hr. unfold lessThan. rewrite Z.ltb_irrefl.
  split; [done|]. split; [|done]. intros ->. discriminate.
Qed.
End InRange.


(* what a chain says, range by range *)
Lemma chain_properties ranges : forall from to months,
  0 <= months -> chain from ranges to months -> ranges <> [] ->
  (exists r, head ranges = Some r /\ start r = Some from)
  /\ (exists r, last ranges = Some r /\ end_ r = Some to)
  /\ (forall i r1 r2, ranges !! i = Some r1 -> ranges !! S i = Some r2 ->
         end_ r1 = start r2)
  /\ Forall (fun r => exists a b, start r = Some a /\ end_ r = Some b /\ a < b
                      /\ b - a <= 86400 * daysOfMonthsFrom (1000 * a) months
                      /\ b - a <= 2678400 * months) ranges.
Proof.
  induction ranges as [|r rest IH]; intros from to months Hm Hc Hne; [done|].
  simpl in Hc. destruct Hc as (Hs & m & He & Hlt & Hsh & Hrest).
  assert (Hr : exists a b, start r = Some a /\ end_ r = Some b /\ a < b
                 /\ b - a <= 86400 * daysOfMonthsFrom (1000 * a) months
                 /\ b - a <= 2678400 * months).
  { exists from, m. rewrite shiftedBy_value in Hsh. unfold msPerDay in Hsh.
    pose proof (daysOfMonthsFrom_bounds (1000 * from) months Hm). repeat split; [done..|lia|lia]. }
  destruct rest as [|r' rest'].
  - simpl in Hrest. subst m. repeat split.
    + by exists r.
    + by exists r.
    + intros [|i] r1 r2 H1 H2; simpl in *; done.
    + by constructor.
  - destruct (IH m to months Hm Hrest ltac:(done)) as ((r0 & Hh & Hr0) & Hl & Hadj & Hall).
    repeat split.
    + by exists r.
    + destruct Hl as (rl & Hrl & Hel). exists rl. by rewrite last_cons_cons.
    + intros [|i] r1 r2 H1 H2; simpl in H1, H2.
      * injection H1 as <-. simpl in Hh. injection Hh as ->. injection H2 as <-. congruence.
      * by apply (Hadj i).
    + by constructor.
Qed.

(** C3 fails where the batch reaches past the last date a Date can hold
    (the year 275760): from 2017-01-01 to 2024-01-01 with 4000000 months to
    a batch, addMonths gives an Invalid Date, both comparisons with it are
    false, and the one range returned ends in NaN instead of endEpoch. *)
Lemma splitIntoMonthlyRanges_batch_past_Date_range :
  splitIntoMonthlyRanges 1483228800 1704067200 4000000
  = Some (Ok [{| start := Some 1483228800; end_ := None |}]).
Proof. vm_compute. reflexivity. Qed.

Example splitIntoMonthlyRanges_2017_by_6 :
  splitIntoMonthlyRanges 1483228800 1514764800 6
  = Some (Ok [{| start := Some 1483228800; end_ := Some 1498867200 |};
              {| start := Some 1498867200; end_ := Some 1514764800 |}]).
Proof. vm_compute. reflexivity. Qed.

(* 31 January and one month: the day is kept and runs over into 3 March *)
Example splitIntoMonthlyRanges_from_31_January :
  splitIntoMonthlyRanges 1485820800 1490000000 1
  = Some (Ok [{| start := Some 1485820800; end_ := Some 1488499200 |};
              {| start := Some 1488499200; end_ := Some 1490000000 |}]).
Proof. vm_compute. reflexivity. Qed.

Lemma splitIntoMonthlyRanges_partitions_witness :
  exists ranges,
    splitIntoMonthlyRanges 1483228800 1514764800 6 = Some (Ok ranges)
    /\ ranges <> []
    /\ chain 1483228800 ranges 1514764800 6.
Proof. apply splitIntoMonthlyRanges_partitions; lia. Defined.

End Time.


(** * clients/pullpush.ts *)
Module Pullpush.
Import Js Hash Cache Time.
Local Open Scope Z_scope.

Record RedditComment := {
  id : string;
  body : string;
  createdUtc : Z;
  permalink : string;
  subreddit : string
}.

(* created_utc is whatever number the response carries *)
Record RawRedditComment := {
  raw_id : string;
  raw_body : string;
  created_utc : Q;
  raw_permalink : string;
  raw_subreddit : string
}.

Record PullpushResponse := {
  data : list RawRedditComment;
  error : option string   (* the message of the error object, when there is one *)
}.

(* what fetch resolves to: the status, the retry-after header as
   headers.get gives it (None for null), and the body text *)
Record Response := {
  status : Z;
  retryAfter : option string;
  text : string
}.

Definition ok (r : Response) : bool := (200 <=? status r) && (status r <=? 299).

(* the client after its constructor has filled in the defaults *)
Record PullpushClient := {
  product : string;
  monthsPerBatch : Z;
  startEpoch : Z;
  endEpoch : Z;
  subredditFilter : option string;
  namespace : string;
  pageSize : Z;
  baseUrl : string;
  maxRetries : Z;
  retryBackoffMs : Z;
  requestSpacingMs : Z
}.

Definition DEFAULT_BASE_URL : string := "https://api.pullpush.io/reddit/search/comment/".
Definition MIN_CURSOR_INCREMENT : Z := 1.

Inductive Event :=
| Fetched (url : string)
| Slept (ms : number)
| Wrote (checksum : string).

Definition isFinite (x : number) : bool :=
  match x with Finite _ => true | _ => false end.

Definition times1000 (x : number) : number :=
  match x with
  | Finite q => Finite (q * 1000)%Q
  | _ => x
  end.

Definition ofZ (z : Z) : number := Finite (inject_Z z).

Section Client.
Variable localeCompare : string -> string -> Z.
Variable digest : string -> string -> string.
(* Number(text), URLSearchParams.toString and JSON.parse *)
Variable Number : string -> number.
Variable queryString : list (string * string) -> string.
Variable JSON_parse : string -> Result PullpushResponse.
(* the cache behind the client *)
Context {Store : Type} `{CacheClient Store}.
(* the network and the clock *)
Variable Env : Type.
Variable fetch : Env -> string -> Result Response * Env.
Variable Date_now : Env -> Z.
Variable sleep : number -> Env -> Env.

Variable this : PullpushClient.

Record World := {
  cache : Store;
  env : Env;
  events : list Event
}.

(* an awaited step: a value or a throw, and the world after it *)
Definition M (A : Type) : Type := World -> Result A * World.

#[local] Instance M_ret : MRet M := fun A a w => (Ok a, w).
#[local] Instance M_bind : MBind M := fun A B f m w =>
  match m w with
  | (Ok a, w') => f a w'
  | (Throw e, w') => (Throw e, w')
  end.

Definition throw {A : Type} (message : string) : M A := fun w => (Throw message, w).

Definition liftResult {A : Type} (r : Result A) : M A := fun w => (r, w).

Definition cacheRead (checksum : string) : M (option CacheEntry) :=
  fun w => (read (cache w) (namespace this) checksum, w).

Definition cacheWrite (entry : CacheWriteInput) : M unit :=
  fun w =>
    match write (cache w) (namespace this) entry with
    | Ok c => (Ok tt, {| cache := c; env := env w;
                         events := events w ++ [Wrote (w_checksum entry)] |})
    | Throw e => (Throw e, w)
    end.

Definition doFetch (url : string) : M Response :=
  fun w =>
    let '(r, e) := fetch (env w) url in
    (r, {| cache := cache w; env := e; events := events w ++ [Fetched url] |}).

Definition doSleep (ms : number) : M unit :=
  fun w => (Ok tt, {| cache := cache w; env := sleep ms (env w);
                      events := events w ++ [Slept ms] |}).

Definition now : M Z := fun w => (Ok (Date_now (env w)), w).

(* Number(response.headers.get(retry-after)); Number(null) is 0 *)
Definition retryAfterNumber (response : Response) : number :=
  match retryAfter response with
  | None => Finite 0
  | Some header => Number header
  end.

(* the wait after a 429 *)
Definition rateLimitWait (response : Response) (attempt : Z) : number :=
  let fromHeader := retryAfterNumber response in
  if isFinite fromHeader then times1000 fromHeader
  else ofZ (retryBackoffMs this * (attempt + 1)).

(** fetchLive: the for loop, with [remaining] turns left of maxRetries *)
Fixpoint fetchLiveFrom (remaining : nat) (attempt : Z) (url checksum : string)
    : M PullpushResponse :=
  match remaining with
  | O => throw "Exceeded retry budget for pullpush API request."
  | S remaining' =>
      response ← doFetch url;
      if status response =? 429 then
        let waitMs := rateLimitWait response attempt in
        _ ← doSleep waitMs;
        fetchLiveFrom remaining' (attempt + 1) url checksum
      else if negb (ok response) then
        if attempt <? maxRetries this - 1 then
          let waitMs := ofZ (retryBackoffMs this * (attempt + 1)) in
          _ ← doSleep waitMs;
          fetchLiveFrom remaining' (attempt + 1) url checksum
        else
          throw ("Pullpush API request failed with status " +:+ String_of_Z (status response))
      else
        _ ← cacheWrite {| w_checksum := checksum; w_body := text response;
                          w_metadata := Some [("url", Some (JString url));
                                              ("status", Some (JNumber (status response)))] |};
        liftResult (JSON_parse (text response))
  end.

Definition fetchLive (url checksum : string) : M PullpushResponse :=
  fetchLiveFrom (Z.to_nat (maxRetries this)) 0 url checksum.

Definition mapComment (comment : RawRedditComment) : RedditComment :=
  {| id := raw_id comment;
     body := raw_body comment;
     createdUtc := Qfloor (created_utc comment);
     permalink := raw_permalink comment;
     subreddit := raw_subreddit comment |}.

Definition requestUrl (after before : Z) : string :=
  let query :=
    [("q", product this); ("size", String_of_Z (pageSize this));
     ("sort_type", "created_utc"); ("sort", "asc");
     ("after", String_of_Z after); ("before", String_of_Z before)]
    ++ match subredditFilter this with
       | Some name => [("subreddit", name)]
       | None => []
       end in
  baseUrl this +:+ "?" +:+ queryString query.

Definition requestChecksum (url : string) : string :=
  checksumFrom localeCompare digest
    (JObject [("url", JString url); ("method", JString "GET")]) sha256.

(* one page: from the cache, or live after the spacing delay *)
Definition fetchPage (url : string) (lastRequestTime : Z) : M (PullpushResponse * Z) :=
  let checksum := requestChecksum url in
  cached ← cacheRead checksum;
  match cached with
  | Some entry =>
      payload ← liftResult (JSON_parse (Cache.body entry));
      mret (payload, lastRequestTime)
  | None =>
      t ← now;
      let elapsed := t - lastRequestTime in
      _ ← (if (0 <? requestSpacingMs this) && (elapsed <? requestSpacingMs this)
           then doSleep (ofZ (requestSpacingMs this - elapsed))
           else mret tt);
      payload ← fetchLive url checksum;
      t' ← now;
      mret (payload, t')
  end.

(* the cursor after a page that was not empty *)
Definition nextCursor (after : Z) (mapped : list RedditComment) : Z :=
  let lastTimestamp := from_option createdUtc after (last mapped) in
  if lastTimestamp <=? after then after + MIN_CURSOR_INCREMENT else lastTimestamp.

(** fetchRange: the while loop; fuel bounds the number of pages. None
    stands for a loop cut short by its fuel. *)
Fixpoint fetchRangeFrom (fuel : nat) (rangeEnd cursor lastRequestTime : Z)
    (results : list RedditComment) : M (option (list RedditComment)) :=
  if cursor <? rangeEnd then
    match fuel with
    | O => mret None
    | S fuel' =>
        let remaining := rangeEnd - cursor in
        if remaining <=? 0 then mret (Some results) else
        let after := cursor in
        let before := rangeEnd in
        let url := requestUrl after before in
        '(payload, lastRequestTime') ← fetchPage url lastRequestTime;
        match error payload with
        | Some message => throw ("Pullpush API returned error: " +:+ message)
        | None =>
            let mapped := map mapComment (data payload) in
            match mapped with
            | [] => mret (Some results)
            | _ =>
                fetchRangeFrom fuel' rangeEnd (nextCursor after mapped) lastRequestTime'
                  (results ++ mapped)
            end
        end
    end
  else mret (Some results).

(* a range whose start or end is NaN gives no page: the loop test is false at once *)
Definition fetchRange (range : EpochRange) : M (option (list RedditComment)) :=
  match start range, end_ range with
  | Some rangeStart, Some rangeEnd =>
      fetchRangeFrom (Z.to_nat (rangeEnd - rangeStart)) rangeEnd rangeStart 0 []
  | _, _ => mret (Some [])
  end.

(* a Map from id to comment, in insertion order *)
Fixpoint mapSet (key : string) (value : RedditComment)
    (m : list (string * RedditComment)) : list (string * RedditComment) :=
  match m with
  | [] => [(key, value)]
  | (k, v) :: rest =>
      if String.eqb k key then (k, value) :: rest else (k, v) :: mapSet key value rest
  end.

Definition setAll (dedup : list (string * RedditComment)) (chunk : list RedditComment)
    : list (string * RedditComment) :=
  fold_left (fun m comment => mapSet (id comment) comment m) chunk dedup.

Fixpoint fetchRanges (ranges : list EpochRange) (dedup : list (string * RedditComment))
    : M (option (list (string * RedditComment))) :=
  match ranges with
  | [] => mret (Some dedup)
  | range :: rest =>
      chunk ← fetchRange range;
      match chunk with
      | None => mret None
      | Some comments => fetchRanges rest (setAll dedup comments)
      end
  end.

Definition byCreatedUtc (a b : RedditComment) : Z := createdUtc a - createdUtc b.

Definition fetchAll : M (option (list RedditComment)) :=
  match splitIntoMonthlyRanges (startEpoch this) (endEpoch this) (monthsPerBatch this) with
  | None => mret None
  | Some (Throw message) => throw message
  | Some (Ok ranges) =>
      dedup ← fetchRanges ranges [];
      mret (option_map (fun d => sort byCreatedUtc (map snd d)) dedup)
  end.


(** ** fetchLive: the retry loop *)

Lemma bind_run {A B : Type} (m : M A) (k : A -> M B) (w : World) :
  (m ≫= k) w = match m w with
                | (Ok a, w') => k a w'
                | (Throw e, w') => (Throw e, w')
                end.
Proof. reflexivity. Qed.

(* a retry-after header that Number reads as a finite number is the wait, in seconds *)
Lemma rateLimitWait_header response attempt header q :
  retryAfter response = Some header -> Number header = Finite q ->
  rateLimitWait response attempt = Finite (q * 1000)%Q.
Proof. intros Hh Hn. unfold rateLimitWait, retryAfterNumber. by rewrite Hh, Hn. Qed.

(* a header that Number cannot read (an HTTP date) falls back on the backoff *)
Lemma rateLimitWait_unreadable_header response attempt header :
  retryAfter response = Some header -> Number header = NaN ->
  rateLimitWait response attempt = ofZ (retryBackoffMs this * (attempt + 1)).
Proof. intros Hh Hn. unfold rateLimitWait, retryAfterNumber. by rewrite Hh, Hn. Qed.

(* no header at all: headers.get gives null, Number(null) is 0, and the wait is 0 *)
Lemma rateLimitWait_no_header response attempt :
  retryAfter response = None -> rateLimitWait response attempt = Finite (0 * 1000)%Q.
Proof. intros Hh. unfold rateLimitWait, retryAfterNumber. by rewrite Hh. Qed.

Lemma fetchLiveFrom_429 remaining attempt url checksum w response e :
  fetch (env w) url = (Ok response, e) -> status response = 429 ->
  fetchLiveFrom (S remaining) attempt url checksum w
  = fetchLiveFrom remaining (attempt + 1) url checksum
      {| cache := cache w; env := sleep (rateLimitWait response attempt) e;
         events := (events w ++ [Fetched url]) ++ [Slept (rateLimitWait response attempt)] |}.
Proof.
  intros Hf Hs. cbn [fetchLiveFrom]. rewrite bind_run. unfold doFetch at 1. rewrite Hf.
  by rewrite Hs.
Qed.

Lemma fetchLiveFrom_ok remaining attempt url checksum w response e c :
  fetch (env w) url = (Ok response, e) -> status response <> 429 -> ok response = true ->
  write (cache w) (namespace this)
    {| w_checksum := checksum; w_body := text response;
       w_metadata := Some [("url", Some (JString url));
                           ("status", Some (JNumber (status response)))] |} = Ok c ->
  fetchLiveFrom (S remaining) attempt url checksum w
  = (JSON_parse (text response),
     {| cache := c; env := e;
        events := (events w ++ [Fetched url]) ++ [Wrote checksum] |}).
Proof.
  intros Hf Hs Hok Hw. cbn [fetchLiveFrom]. rewrite bind_run. unfold doFetch at 1.
  rewrite Hf. apply Z.eqb_neq in Hs. rewrite Hs, Hok. cbn [negb].
  rewrite bind_run. unfold cacheWrite. simpl. by rewrite Hw.
Qed.

(* 429 on the first two attempts, success on the third, with a budget of
   three or more: the data of the third response comes back *)
Lemma fetchLive_succeeds_on_third_attempt url checksum w r1 e1 r2 e2 r3 e3 c :
  3 <= maxRetries this ->
  fetch (env w) url = (Ok r1, e1) -> status r1 = 429 ->
  fetch (sleep (rateLimitWait r1 0) e1) url = (Ok r2, e2) -> status r2 = 429 ->
  fetch (sleep (rateLimitWait r2 1) e2) url = (Ok r3, e3) ->
  status r3 <> 429 -> ok r3 = true ->
  write (cache w) (namespace this)
    {| w_checksum := checksum; w_body := text r3;
       w_metadata := Some [("url", Some (JString url));
                           ("status", Some (JNumber (status r3)))] |} = Ok c ->
  fst (fetchLive url checksum w) = JSON_parse (text r3).
Proof.
  intros Hm F1 S1 F2 S2 F3 S3 O3 Hw. unfold fetchLive.
  destruct (Z.to_nat (maxRetries this)) as [|[|[|n]]] eqn:En; [lia..|].
  rewrite (fetchLiveFrom_429 _ _ _ _ _ _ _ F1 S1).
  rewrite (fetchLiveFrom_429 _ _ _ _ _ r2 e2) by done.
  by rewrite (fetchLiveFrom_ok _ _ _ _ _ r3 e3 c).
Qed.

(* 429 on every attempt: the budget runs out and the call throws *)
Lemma fetchLiveFrom_exhausted remaining : forall attempt url checksum w,
  (forall e, exists response e', fetch e url = (Ok response, e') /\ status response = 429) ->
  fst (fetchLiveFrom remaining attempt url checksum w)
  = Throw "Exceeded retry budget for pullpush API request.".
Proof.
  induction remaining as [|remaining IH]; intros attempt url checksum w Hall; [done|].
  destruct (Hall (env w)) as (response & e' & Hf & Hs).
  rewrite (fetchLiveFrom_429 _ _ _ _ _ _ _ Hf Hs). by apply IH.
Qed.

(** ** fetchRange: the cursor moves on and the loop ends *)

Lemma nextCursor_max after mapped c :
  last mapped = Some c ->
  nextCursor after mapped = Z.max (createdUtc c) (after + 1).
Proof.
  intros Hl. unfold nextCursor, MIN_CURSOR_INCREMENT. rewrite Hl. simpl.
  destruct (Z.leb_spec (createdUtc c) after); lia.
Qed.

Lemma nextCursor_progress after mapped : after < nextCursor after mapped.
Proof.
  unfold nextCursor, MIN_CURSOR_INCREMENT.
  destruct (Z.leb_spec (from_option createdUtc after (last mapped)) after); lia.
Qed.


Lemma fetchRangeFrom_not_cut fuel : forall rangeEnd cursor lastRequestTime results w,
  (Z.to_nat (rangeEnd - cursor) <= fuel)%nat ->
  fst (fetchRangeFrom fuel rangeEnd cursor lastRequestTime results w) <> Ok None.
Proof.
  induction fuel as [|fuel IH]; intros rangeEnd cursor t results w Hf.
  - simpl. destruct (Z.ltb_spec cursor rangeEnd); [lia|]. simpl. discriminate.
  - cbn [fetchRangeFrom]. destruct (Z.ltb_spec cursor rangeEnd); [|simpl; discriminate].
    destruct (Z.leb_spec (rangeEnd - cursor) 0); [simpl; discriminate|].
    rewrite bind_run.
    destruct (fetchPage (requestUrl cursor rangeEnd) t w) as [[[payload t']|e] w'];
      [|simpl; discriminate].
    destruct (error payload); [simpl; discriminate|].
    destruct (map mapComment (data payload)) as [|c mapped] eqn:Hm; [simpl; discriminate|].
    apply IH. pose proof (nextCursor_progress cursor (c :: mapped)). lia.
Qed.

Lemma fetchRange_not_cut range w : fst (fetchRange range w) <> Ok None.
Proof.
  unfold fetchRange.
  destruct (start range), (end_ range); try (simpl; discriminate).
  by apply fetchRangeFrom_not_cut.
Qed.



(** ** fetchAll: one comment per id, oldest first *)

(* every key of the map is the id of the comment stored under it *)
Definition keyed (m : list (string * RedditComment)) : Prop :=
  Forall (fun kv => fst kv = id (snd kv)) m.

Lemma mapSet_elem key value m k :
  k ∈ map fst (mapSet key value m) <-> k = key \/ k ∈ map fst m.
Proof.
  induction m as [|[k0 v0] m IH]; simpl.
  - rewrite list_elem_of_singleton, elem_of_nil. tauto.
  - destruct (String.eqb_spec k0 key) as [->|Hne]; simpl.
    + rewrite !elem_of_cons. tauto.
    + rewrite !elem_of_cons, IH. tauto.
Qed.

Lemma mapSet_NoDup key value m :
  NoDup (map fst m) -> NoDup (map fst (mapSet key value m)).
Proof.
  induction m as [|[k0 v0] m IH]; simpl; intros Hnd.
  - apply NoDup_singleton.
  - destruct (String.eqb_spec k0 key) as [->|Hne]; simpl; [done|].
    apply NoDup_cons in Hnd as [Hk Hnd]. apply NoDup_cons. split; [|auto].
    rewrite mapSet_elem. intros [->|?]; done.
Qed.

Lemma mapSet_keyed comment m : keyed m -> keyed (mapSet (id comment) comment m).
Proof.
  unfold keyed. induction m as [|[k0 v0] m IH]; simpl; intros Hk.
  - by constructor.
  - apply Forall_cons in Hk as [Hk0 Hk].
    destruct (String.eqb_spec k0 (id comment)) as [->|Hne]; constructor; auto.
Qed.

Lemma setAll_inv chunk : forall dedup,
  NoDup (map fst dedup) -> keyed dedup ->
  NoDup (map fst (setAll dedup chunk)) /\ keyed (setAll dedup chunk)
  /\ forall k, k ∈ map fst (setAll dedup chunk) <-> k ∈ map fst dedup \/ k ∈ map id chunk.
Proof.
  unfold setAll. induction chunk as [|c chunk IH]; intros dedup Hnd Hk; simpl.
  - split; [done|split; [done|]]. intros k. rewrite elem_of_nil. tauto.
  - destruct (IH (mapSet (id c) c dedup)) as (N & K & E);
      [by apply mapSet_NoDup | by apply mapSet_keyed|].
    split; [done|split; [done|]]. intros k. rewrite E, mapSet_elem, elem_of_cons. tauto.
Qed.

Lemma setAll_app dedup chunk1 chunk2 :
  setAll dedup (chunk1 ++ chunk2) = setAll (setAll dedup chunk1) chunk2.
Proof. unfold setAll. by rewrite fold_left_app. Qed.

(* every comment the ranges give, in the order they come *)
Fixpoint fetchChunks (ranges : list EpochRange) : M (option (list RedditComment)) :=
  match ranges with
  | [] => mret (Some [])
  | range :: rest =>
      chunk ← fetchRange range;
      match chunk with
      | None => mret None
      | Some comments =>
          more ← fetchChunks rest;
          mret (option_map (app comments) more)
      end
  end.

Lemma fetchRanges_chunks ranges : forall dedup w,
  fetchRanges ranges dedup w
  = match fetchChunks ranges w with
    | (Ok all, w') => (Ok (option_map (setAll dedup) all), w')
    | (Throw e, w') => (Throw e, w')
    end.
Proof.
  induction ranges as [|range rest IH]; intros dedup w; [done|].
  cbn [fetchRanges fetchChunks]. rewrite !bind_run.
  destruct (fetchRange range w) as [[[comments|]|e] w1]; [|done..].
  rewrite IH, bind_run.
  destruct (fetchChunks rest w1) as [[[more|]|e] w2]; [|done..].
  simpl. by rewrite setAll_app.
Qed.

Lemma fetchRanges_not_cut ranges : forall dedup w,
  fst (fetchRanges ranges dedup w) <> Ok None.
Proof.
  induction ranges as [|range rest IH]; intros dedup w; [simpl; discriminate|].
  cbn [fetchRanges]. rewrite bind_run.
  pose proof (fetchRange_not_cut range w) as Hr.
  destruct (fetchRange range w) as [[[comments|]|e] w1]; [apply IH|done|simpl; discriminate].
Qed.

Lemma byCreatedUtc_total a b : byCreatedUtc a b <= 0 \/ byCreatedUtc b a <= 0.
Proof. unfold byCreatedUtc. lia. Qed.

(** C8. Whatever the cache and the network return, fetchAll ends, and when
    it returns a list, no two of its comments share an id, every id that a
    page gave is in it, and it is in ascending order of createdUtc. *)
Theorem fetchAll_one_per_id_oldest_first w :
  fst (fetchAll w) <> Ok None
  /\ forall comments w',
       fetchAll w = (Ok (Some comments), w') ->
       NoDup (map id comments)
       /\ Sorted (fun a b => createdUtc a <= createdUtc b) comments
       /\ exists ranges all,
            splitIntoMonthlyRanges (startEpoch this) (endEpoch this) (monthsPerBatch this)
            = Some (Ok ranges)
            /\ fetchChunks ranges w = (Ok (Some all), w')
            /\ forall k, k ∈ map id comments <-> k ∈ map id all.
Proof.
  unfold fetchAll.
  destruct (splitIntoMonthlyRanges_total (startEpoch this) (endEpoch this)
              (monthsPerBatch this)) as [[ranges|e] ->].
  2:{ split; [simpl; discriminate | intros ? ? [=]]. }
  rewrite bind_run. split.
  - pose proof (fetchRanges_not_cut ranges [] w) as Hn.
    destruct (fetchRanges ranges [] w) as [[[d|]|e] w1]; simpl; (done || discriminate).
  - intros comments w'. rewrite fetchRanges_chunks.
    destruct (fetchChunks ranges w) as [[[all|]|e] w1] eqn:Hc; simpl; intros [= <- <-].
    destruct (setAll_inv all []) as (N & K & E); [constructor..|].
    assert (Hids : map id (map snd (setAll [] all)) = map fst (setAll [] all)).
    { rewrite map_map. apply map_ext_Forall. eapply Forall_impl; [exact K|].
      by intros [k v] Hkv. }
    split; [|split].
    + rewrite (Permutation_map id (sort_Permutation byCreatedUtc _)). by rewrite Hids.
    + assert (Hs := sort_Sorted byCreatedUtc byCreatedUtc_total (map snd (setAll [] all))).
      eapply Sorted_weaken; [|exact Hs]. unfold cmp_le, byCreatedUtc. intros a b. lia.
    + exists ranges, all. repeat split; [done|..]; intros Hk.
      * rewrite (Permutation_map id (sort_Permutation byCreatedUtc _)), Hids, E in Hk.
        destruct Hk as [Hk|Hk]; [by apply elem_of_nil in Hk | done].
      * rewrite (Permutation_map id (sort_Permutation byCreatedUtc _)), Hids, E. by right.
Qed.

End Client.

Arguments cache {Store Env} w.
Arguments env {Store Env} w.
Arguments events {Store Env} w.

(** ** A run against a scripted network and an empty file cache *)

(* the responses still to come *)
Definition Script := list Response.

Definition scriptedFetch (env : Script) (url : string) : Result Response * Script :=
  match env with
  | response :: rest => (Ok response, rest)
  | [] => (Throw "fetch failed", [])
  end.

Definition stillClock (env : Script) : Z := 0.
Definition noSleep (ms : number) (env : Script) : Script := env.

Definition plainQuery (params : list (string * string)) : string :=
  join "&" (map (fun p => fst p +:+ "=" +:+ snd p) params).

Definition rawComment (i : string) (t : Q) : RawRedditComment :=
  {| raw_id := i; raw_body := "text"; created_utc := t;
     raw_permalink := "/r/x/" +:+ i; raw_subreddit := "x" |}.

Definition page1 : PullpushResponse :=
  {| data := [rawComment "a" (211 # 2); rawComment "b" 102]; error := None |}.
Definition page2 : PullpushResponse :=
  {| data := [rawComment "b" 102; rawComment "c" 100]; error := None |}.
Definition emptyPage : PullpushResponse := {| data := []; error := None |}.

Definition sampleParse (text : string) : Result PullpushResponse :=
  if String.eqb text "page1" then Ok page1
  else if String.eqb text "page2" then Ok page2
  else if String.eqb text "empty" then Ok emptyPage
  else Throw "Unexpected token".

Definition sampleClient : PullpushClient :=
  {| product := "clickup"; monthsPerBatch := 6; startEpoch := 100; endEpoch := 110;
     subredditFilter := None; namespace := "pullpush-comments"; pageSize := 100;
     baseUrl := DEFAULT_BASE_URL; maxRetries := 5; retryBackoffMs := 5000;
     requestSpacingMs := 0 |}.

Definition world0 (script : Script) : World Script :=
  {| cache := emptyFileCache; env := script; events := [] |}.

Definition success (body : string) : Response :=
  {| status := 200; retryAfter := None; text := body |}.
Definition rateLimited (header : option string) : Response :=
  {| status := 429; retryAfter := header; text := "" |}.


(** C7 fails on a 429 that carries no retry-after header: headers.get gives
    null, Number(null) is 0, which is finite, so the client sleeps 0 ms and
    asks again at once, where the claim (and the README) have it wait
    retryBackoffMs times attempt plus one, here 5000 ms. *)
Lemma fetchLive_429_without_header_waits_0 :
  let run := fetchLive sampleNumber sampleParse Script scriptedFetch noSleep sampleClient
               "u" "c" (world0 [rateLimited None; success "page1"]) in
  fst run = Ok page1
  /\ events (snd run) = [Fetched "u"; Slept (Finite 0); Fetched "u"; Wrote "c"]
  /\ ofZ (retryBackoffMs sampleClient * (0 + 1)) = Finite 5000.
Proof. vm_compute. repeat split. Qed.

Definition sampleComments : list RedditComment :=
  [ {| id := "c"; body := "text"; createdUtc := 100; permalink := "/r/x/c"; subreddit := "x" |};
    {| id := "b"; body := "text"; createdUtc := 102; permalink := "/r/x/b"; subreddit := "x" |};
    {| id := "a"; body := "text"; createdUtc := 105; permalink := "/r/x/a"; subreddit := "x" |} ].

Definition sampleScript : Script := [success "page1"; success "page2"; success "empty"].

(* two comments within the second the cursor stands on *)
Definition plateau : list RedditComment :=
  map mapComment [rawComment "x" 100; rawComment "y" (1009 # 10)].


(* the run of fetchAll against the three scripted pages, evaluated *)
Definition sampleRun : Result (option (list RedditComment)) * World Script :=
  Eval vm_compute in
    fetchAll codeUnitCompare textDigest sampleNumber plainQuery sampleParse
      Script scriptedFetch stillClock noSleep sampleClient (world0 sampleScript).

Lemma sampleRun_eq :
  fetchAll codeUnitCompare textDigest sampleNumber plainQuery sampleParse
    Script scriptedFetch stillClock noSleep sampleClient (world0 sampleScript)
  = (Ok (Some sampleComments), snd sampleRun).
Proof. vm_cast_no_check (eq_refl sampleRun). Qed.

Lemma fetchAll_one_per_id_oldest_first_witness :
  NoDup (map id sampleComments)
  /\ Sorted (fun a b => createdUtc a <= createdUtc b) sampleComments.
Proof.
  destruct (fetchAll_one_per_id_oldest_first codeUnitCompare textDigest sampleNumber
              plainQuery sampleParse Script scriptedFetch stillClock noSleep sampleClient
              (world0 sampleScript)) as [_ W].
  destruct (W sampleComments (snd sampleRun) sampleRun_eq) as (N & S & _).
  split; assumption.
Defined.

End Pullpush.


(** * analysis/commentAnalyzer.ts *)
Module Analyzer.
Import Js Hash Cache Pullpush.

Inductive Sentiment := VeryNegative | Negative | Neutral | Positive | VeryPositive.
Inductive ConfidenceBand := VeryLow | Low | Medium | High | VeryHigh.

Record CategoryDefinition := {
  slug : string;
  label : string;
  description : string;
  signals : list string
}.

Record CommentClassification := {
  comment : RedditComment;
  category : string;
  sentiment : Sentiment;
  summary : string;
  categoryConfidence : ConfidenceBand;
  sentimentConfidence : ConfidenceBand
}.

Record AnalysisResult := {
  categories : list CategoryDefinition;
  classifications : list CommentClassification
}.

(* the parsed output of the classification schema *)
Record ClassificationPayload := {
  p_category : string;
  p_sentiment : Sentiment;
  p_categoryConfidence : ConfidenceBand;
  p_sentimentConfidence : ConfidenceBand;
  p_summary : string
}.

(** ** classifyComment *)

(* the object classifyComment returns *)
Definition classificationOf (c : RedditComment) (parsed : ClassificationPayload)
    : CommentClassification :=
  {| comment := c;
     category := p_category parsed;
     sentiment := p_sentiment parsed;
     summary := p_summary parsed;
     categoryConfidence := p_categoryConfidence parsed;
     sentimentConfidence := p_sentimentConfidence parsed |}.

Definition noParsedOutput : string :=
  "OpenAI response did not include parsed classification output.".

Section ClassifyComment.
Variable localeCompare : string -> string -> Z.
Variable digest : string -> string -> string.
Context {Store : Type} `{CacheClient Store}.
(* the inference service: client.responses.parse gives a response whose
   output_parsed is a payload or null, or throws *)
Variable Service : Type.
Variable responsesParse :
  Service -> string -> string -> Result (option ClassificationPayload) * Service.
(* JSON.stringify and JSON.parse on what the cache stores; a stored body
   may parse to null *)
Variable JSON_stringify : option ClassificationPayload -> string.
Variable JSON_parse : string -> Result (option ClassificationPayload).
(* the prompt template; it formats the date of the comment, which throws
   a RangeError on a date out of range *)
Variable buildPrompt :
  RedditComment -> list CategoryDefinition -> Z -> Z -> Result string.

Variables keyword model productDescription : string.

Definition categorySnapshot (cat : CategoryDefinition) : Json :=
  JObject [("slug", JString (slug cat)); ("label", JString (label cat));
           ("description", JString (description cat));
           ("signals", JArray (map JString (signals cat)))].

Definition cachePayload (c : RedditComment) (cats : list CategoryDefinition) : Json :=
  JObject [("type", JString "classification"); ("version", JNumber 1);
           ("model", JString model); ("keyword", JString keyword);
           ("productDescription", JString productDescription);
           ("commentId", JString (id c)); ("commentBody", JString (Pullpush.body c));
           ("categoriesSnapshot", JArray (map categorySnapshot cats))].

(* the function handed to getOrCompute *)
Definition compute (prompt : string) (service : Service)
    : Result (option ClassificationPayload) * Service :=
  match responsesParse service model prompt with
  | (Ok (Some parsedPayload), service') => (Ok (Some parsedPayload), service')
  | (Ok None, service') => (Throw noParsedOutput, service')
  | (Throw e, service') => (Throw e, service')
  end.

Definition classifyComment (c : RedditComment) (cats : list CategoryDefinition)
    (index total : Z) (st : LlmCache.State (S := Store) Service)
    : Result CommentClassification * LlmCache.State (S := Store) Service :=
  match buildPrompt c cats index total with
  | Throw e => (Throw e, st)
  | Ok prompt =>
      match LlmCache.getOrCompute localeCompare digest Service _ JSON_stringify JSON_parse
              LlmCache.defaultNamespace (cachePayload c cats) (compute prompt) st with
      | (Throw e, st') => (Throw e, st')
      | (Ok None, st') => (Throw noParsedOutput, st')
      | (Ok (Some parsed), st') => (Ok (classificationOf c parsed), st')
      end
  end.

(* whatever classifyComment returns is about the comment it was given *)
Lemma classifyComment_comment c cats index total st r st' :
  classifyComment c cats index total st = (Ok r, st') -> comment r = c.
Proof.
  unfold classifyComment. destruct (buildPrompt c cats index total); [|discriminate].
  destruct (LlmCache.getOrCompute _ _ _ _ _ _ _ _ _ _) as [[[p|]|e] s]; [|discriminate..].
  by intros [= <- _].
Qed.

(* a miss on which the service gives no parsed output: classifyComment throws *)
Lemma classifyComment_no_parsed_output c cats index total st prompt service' :
  buildPrompt c cats index total = Ok prompt ->
  read (LlmCache.cache st) LlmCache.defaultNamespace
    (LlmCache.checksumOf localeCompare digest (cachePayload c cats)) = Ok None ->
  responsesParse (LlmCache.world st) model prompt = (Ok None, service') ->
  fst (classifyComment c cats index total st) = Throw noParsedOutput.
Proof.
  intros Hp Hr Hs. unfold classifyComment, LlmCache.getOrCompute, compute.
  by rewrite Hp, Hr, Hs.
Qed.
End ClassifyComment.


(** ** analyze: the tasks under the limiter, and the ordered emission

    The pipeline is a transition system whose steps are the stretches of code
    that run without an await between them. A task is queued by the limiter
    (p-limit: as many tasks as the limit allows run at once, started in the
    order they were queued), awaits classifyComment, then stores its result in
    pending and runs emitIfReady, which awaits the callback after every item
    it emits. The enrichment of a task is one step whose outcome is whatever
    classifyComment gave for it. The callback is taken to return normally. *)

Inductive Who := Task (index : nat) | Main.

(* the promise of analyze *)
Inductive MainState :=
| AwaitingTasks                    (* at await Promise.all(tasks) *)
| FinalDrain                       (* inside the last emitIfReady, at the await of the callback *)
| Resolved (result : AnalysisResult)
| Rejected (message : string).

Record Pipeline := {
  queued : nat;                                (* the tasks below this index have been started *)
  running : gset nat;                          (* tasks awaiting classifyComment *)
  draining : gset nat;                         (* tasks inside emitIfReady, at the await of the callback *)
  fulfilled : gset nat;                        (* tasks that have returned *)
  pending : gmap nat CommentClassification;
  nextEmitIndex : nat;
  collected : list CommentClassification;
  emitted : list CommentClassification;        (* the calls of onClassification so far *)
  main : MainState
}.

Inductive Label :=
| Start (index : nat)
| Complete (index : nat) (outcome : Result ClassificationPayload)
| Resume (who : Who)
| AllFulfilled.

Section Pipeline.
(* the comments after the sort, the categories, and the options *)
Variable sorted : list RedditComment.
Variable cats : list CategoryDefinition.
Variable concurrency : nat.
Variable hasCallback : bool.     (* options.onClassification is given *)
Variable shouldCollect : bool.

Definition initial : Pipeline :=
  {| queued := 0; running := ∅; draining := ∅; fulfilled := ∅; pending := ∅;
     nextEmitIndex := 0; collected := []; emitted := []; main := AwaitingTasks |}.

(* the body of the while loop up to the callback *)
Definition emitOne (ready : CommentClassification) (s : Pipeline) : Pipeline :=
  {| queued := queued s; running := running s; draining := draining s;
     fulfilled := fulfilled s;
     pending := delete (nextEmitIndex s) (pending s);
     nextEmitIndex := nextEmitIndex s;
     collected := if shouldCollect then collected s ++ [ready] else collected s;
     emitted := if hasCallback then emitted s ++ [ready] else emitted s;
     main := main s |}.

(* nextEmitIndex += 1 *)
Definition advance (s : Pipeline) : Pipeline :=
  {| queued := queued s; running := running s; draining := draining s;
     fulfilled := fulfilled s; pending := pending s;
     nextEmitIndex := S (nextEmitIndex s);
     collected := collected s; emitted := emitted s; main := main s |}.

(* emitIfReady reaches the await of the callback *)
Definition suspend (who : Who) (s : Pipeline) : Pipeline :=
  {| queued := queued s; running := running s;
     draining := match who with Task i => {[i]} ∪ draining s | Main => draining s end;
     fulfilled := fulfilled s; pending := pending s;
     nextEmitIndex := nextEmitIndex s;
     collected := collected s; emitted := emitted s;
     main := match who with Task _ => main s | Main => FinalDrain end |}.

(* emitIfReady returns: a task is over, or analyze returns its result *)
Definition finish (who : Who) (s : Pipeline) : Pipeline :=
  {| queued := queued s; running := running s;
     draining := match who with Task i => draining s ∖ {[i]} | Main => draining s end;
     fulfilled := match who with Task i => {[i]} ∪ fulfilled s | Main => fulfilled s end;
     pending := pending s; nextEmitIndex := nextEmitIndex s;
     collected := collected s; emitted := emitted s;
     main := match who with
             | Task _ => main s
             | Main => Resolved {| categories := cats;
                                   classifications := if shouldCollect then collected s else [] |}
             end |}.

(* the while loop when there is no callback, hence no await: it runs to its end *)
Fixpoint drainAll (fuel : nat) (s : Pipeline) : Pipeline :=
  match pending s !! nextEmitIndex s, fuel with
  | Some ready, S fuel' => drainAll fuel' (advance (emitOne ready s))
  | _, _ => s
  end.

(* emitIfReady from the loop test on, up to its next await or its end *)
Definition emitIfReady (who : Who) (s : Pipeline) : Pipeline :=
  if hasCallback then
    match pending s !! nextEmitIndex s with
    | Some ready => suspend who (emitOne ready s)
    | None => finish who s
    end
  else finish who (drainAll (size (pending s)) s).

Definition setPending (index : nat) (c : CommentClassification) (s : Pipeline) : Pipeline :=
  {| queued := queued s; running := running s ∖ {[index]}; draining := draining s;
     fulfilled := fulfilled s;
     pending := <[index := c]> (pending s);
     nextEmitIndex := nextEmitIndex s;
     collected := collected s; emitted := emitted s; main := main s |}.

(* a task throws: Promise.all rejects with the first rejection *)
Definition reject (index : nat) (message : string) (s : Pipeline) : Pipeline :=
  {| queued := queued s; running := running s ∖ {[index]}; draining := draining s;
     fulfilled := fulfilled s; pending := pending s;
     nextEmitIndex := nextEmitIndex s;
     collected := collected s; emitted := emitted s;
     main := match main s with AwaitingTasks => Rejected message | m => m end |}.

Definition startTask (s : Pipeline) : Pipeline :=
  {| queued := S (queued s); running := {[queued s]} ∪ running s; draining := draining s;
     fulfilled := fulfilled s; pending := pending s;
     nextEmitIndex := nextEmitIndex s;
     collected := collected s; emitted := emitted s; main := main s |}.

Inductive step : Pipeline -> Label -> Pipeline -> Prop :=
| step_start s :
    queued s < length sorted ->
    size (running s) + size (draining s) < concurrency ->
    step s (Start (queued s)) (startTask s)
| step_complete_ok s index c parsed :
    index ∈ running s -> sorted !! index = Some c ->
    step s (Complete index (Ok parsed))
         (emitIfReady (Task index) (setPending index (classificationOf c parsed) s))
| step_complete_throw s index message :
    index ∈ running s ->
    step s (Complete index (Throw message)) (reject index message s)
| step_resume_task s index :
    index ∈ draining s ->
    step s (Resume (Task index)) (emitIfReady (Task index) (advance s))
| step_resume_main s :
    main s = FinalDrain ->
    step s (Resume Main) (emitIfReady Main (advance s))
| step_all_fulfilled s :
    main s = AwaitingTasks -> (forall i, i < length sorted -> i ∈ fulfilled s) ->
    step s AllFulfilled (emitIfReady Main s).

(* a run: the labels of its steps, first to last *)
Inductive run : Pipeline -> list Label -> Pipeline -> Prop :=
| run_nil s : run s [] s
| run_step s labels s' l s'' : run s labels s' -> step s' l s'' -> run s (labels ++ [l]) s''.


(** *** The invariant of a run *)

(* how many items have been through the loop body: the callback of the
   last one may still be awaited *)
Definition emittedCount (s : Pipeline) : nat :=
  nextEmitIndex s + (if decide (draining s = ∅) then 0 else 1).

(* c is the classification that task i completed with *)
Definition completedAs (labels : list Label) (i : nat) (c : CommentClassification) : Prop :=
  exists ci parsed,
    sorted !! i = Some ci /\ c = classificationOf ci parsed
    /\ In (Complete i (Ok parsed)) labels.

Definition firstFailure (labels : list Label) : option string :=
  head (omap (fun l => match l with
                       | Complete _ (Throw message) => Some message
                       | _ => None
                       end) labels).

Definition measure (s : Pipeline) : nat :=
  3 * (length sorted - queued s) + 2 * size (running s) + size (draining s)
  + 2 * (length sorted - nextEmitIndex s)
  + match main s with AwaitingTasks => 1 | _ => 0 end.

(* [idle]: emitIfReady is not in the middle of its loop *)
Record Inv (idle : bool) (labels : list Label) (s : Pipeline) : Prop := {
  inv_queued : queued s <= length sorted;
  inv_running : forall i, i ∈ running s -> i < queued s;
  inv_draining : forall i, i ∈ draining s -> i < queued s /\ (i ∉ running s);
  inv_fulfilled : forall i, i ∈ fulfilled s ->
                    i < queued s /\ (i ∉ running s) /\ (i ∉ draining s);
  inv_main : main s <> FinalDrain;
  inv_one : forall i j, i ∈ draining s -> j ∈ draining s -> i = j;
  inv_sync : hasCallback = false -> draining s = ∅ /\ emitted s = [];
  inv_pending : forall i c, pending s !! i = Some c ->
                  ((i ∈ draining s) \/ (i ∈ fulfilled s)) /\ emittedCount s <= i
                  /\ completedAs labels i c;
  inv_done : forall i, (i ∈ draining s) \/ (i ∈ fulfilled s) ->
               i < emittedCount s \/ is_Some (pending s !! i);
  inv_past : forall j, j < emittedCount s -> (j ∈ draining s) \/ (j ∈ fulfilled s);
  inv_idle : idle = true -> draining s = ∅ -> pending s !! nextEmitIndex s = None;
  inv_count : emittedCount s <= length sorted;
  inv_emitted : hasCallback = true ->
                  length (emitted s) = emittedCount s
                  /\ forall j c, emitted s !! j = Some c -> completedAs labels j c;
  inv_collected : if shouldCollect
                  then length (collected s) = emittedCount s
                       /\ (forall j c, collected s !! j = Some c -> completedAs labels j c)
                       /\ (hasCallback = true -> collected s = emitted s)
                  else collected s = [];
  inv_resolved : forall r, main s = Resolved r ->
                   r = {| categories := cats;
                          classifications := if shouldCollect then collected s else [] |}
                   /\ emittedCount s = length sorted
                   /\ (forall i, i < length sorted -> i ∈ fulfilled s);
  inv_awaiting : main s = AwaitingTasks ->
                   forall i, i < queued s ->
                     (i ∈ running s) \/ (i ∈ draining s) \/ (i ∈ fulfilled s);
  inv_labels : forall i o, In (Complete i o) labels -> i < queued s /\ (i ∉ running s);
  inv_failure : match firstFailure labels with
                | Some message => main s = Rejected message
                | None => forall message, main s <> Rejected message
                end;
  inv_measure : length labels + measure s <= 5 * length sorted + 1
}.


Lemma emittedCount_idle s : draining s = ∅ -> emittedCount s = nextEmitIndex s.
Proof. intros H. unfold emittedCount. rewrite decide_True by done. lia. Qed.

Lemma emittedCount_busy s i : i ∈ draining s -> emittedCount s = S (nextEmitIndex s).
Proof.
  intros H. unfold emittedCount. rewrite decide_False by set_solver. lia.
Qed.

Lemma completedAs_snoc labels l i c :
  completedAs labels i c -> completedAs (labels ++ [l]) i c.
Proof.
  intros (ci & parsed & ? & ? & ?). exists ci, parsed.
  repeat split; [done..|]. apply in_or_app. by left.
Qed.

Lemma firstFailure_snoc labels l :
  firstFailure (labels ++ [l])
  = match firstFailure labels with
    | Some message => Some message
    | None => match l with Complete _ (Throw message) => Some message | _ => None end
    end.
Proof.
  unfold firstFailure. rewrite omap_app.
  destruct (omap _ labels) as [|m ms]; simpl; [|done].
  by destruct l as [| ? [|]| |].
Qed.

Lemma In_Complete_snoc labels l i o :
  In (Complete i o) (labels ++ [l]) -> In (Complete i o) labels \/ l = Complete i o.
Proof. intros [H|[H|[]]]%in_app_or; auto. Qed.

(* projects the fields of a state that is written out *)
Ltac fields :=
  cbn [queued running draining fulfilled pending nextEmitIndex collected emitted main
       initial startTask reject setPending emitOne advance suspend finish] in *.

Lemma Inv_initial : Inv true [] initial.
Proof.
  assert (E : emittedCount initial = 0) by (by apply emittedCount_idle).
  split; rewrite ?E; fields.
  all: try done.
  all: try lia.
  all: try (by intros i ?%elem_of_empty).
  all: try (by intros i j ?%elem_of_empty).
  - intros i [?%elem_of_empty|?%elem_of_empty]; done.
  - destruct shouldCollect; [|done]. split; [done|split; [|done]].
    intros j c Hj. by rewrite lookup_nil in Hj.
  - unfold measure. fields. rewrite !size_empty. simpl length. lia.
Qed.

Lemma Inv_upgrade labels s :
  Inv false labels s ->
  (draining s = ∅ -> pending s !! nextEmitIndex s = None) ->
  Inv true labels s.
Proof. intros []. by split. Qed.

Lemma Inv_downgrade idle labels s : Inv idle labels s -> Inv false labels s.
Proof. intros []. by split. Qed.

Lemma Inv_start labels s :
  Inv true labels s -> queued s < length sorted ->
  Inv true (labels ++ [Start (queued s)]) (startTask s).
Proof.
  intros I Hq. destruct I.
  assert (E : emittedCount (startTask s) = emittedCount s) by done.
  split; rewrite ?E; fields; try done.
  - intros i [->%elem_of_singleton|Hi]%elem_of_union; [lia|].
    specialize (inv_running0 i Hi). lia.
  - intros i Hi. destruct (inv_draining0 i Hi) as [? ?]. split; [lia|].
    intros [->%elem_of_singleton|?]%elem_of_union; [lia|done].
  - intros i Hi. destruct (inv_fulfilled0 i Hi) as (? & ? & ?). split; [lia|]. split; [|done].
    intros [->%elem_of_singleton|?]%elem_of_union; [lia|done].
  - intros i c Hi. destruct (inv_pending0 i c Hi) as (? & ? & ?).
    repeat split; [done..|]. by apply completedAs_snoc.
  - intros Hcb. destruct (inv_emitted0 Hcb) as [? He]. split; [done|].
    intros j c Hj. by apply completedAs_snoc, He.
  - destruct shouldCollect; [|done]. destruct inv_collected0 as (? & Hc & ?).
    repeat split; [done| |done]. intros j c Hj. by apply completedAs_snoc, Hc.
  - intros Hm i Hi. destruct (decide (i = queued s)) as [->|Hne]; [set_solver|].
    destruct (inv_awaiting0 Hm i) as [?|[?|?]]; [lia|set_solver..].
  - intros i o [Hl|Hl]%In_Complete_snoc; [|done].
    destruct (inv_labels0 i o Hl) as [? ?]. split; [lia|].
    intros [->%elem_of_singleton|?]%elem_of_union; [lia|done].
  - rewrite firstFailure_snoc. by destruct (firstFailure labels).
  - rewrite length_app. unfold measure in *. fields. simpl length.
    rewrite size_union by (apply disjoint_singleton_l; intros Hi;
                           specialize (inv_running0 _ Hi); lia).
    rewrite size_singleton. lia.
Qed.

Lemma size_remove (X : gset nat) i : i ∈ X -> size X = S (size (X ∖ {[i]})).
Proof.
  intros Hi. rewrite (union_difference_L {[i]} X) at 1 by set_solver.
  rewrite size_union by set_solver. by rewrite size_singleton.
Qed.

Lemma Inv_throw labels s i message :
  Inv true labels s -> i ∈ running s ->
  Inv true (labels ++ [Complete i (Throw message)]) (reject i message s).
Proof.
  intros I Hi. destruct I.
  assert (E : emittedCount (reject i message s) = emittedCount s) by done.
  split; rewrite ?E; fields; try done.
  - intros j Hj. apply inv_running0. set_solver.
  - intros j Hj. destruct (inv_draining0 j Hj). split; [done|set_solver].
  - intros j Hj. destruct (inv_fulfilled0 j Hj) as (? & ? & ?).
    split; [done|]. split; [set_solver|done].
  - by destruct (main s).
  - intros j c Hj. destruct (inv_pending0 j c Hj) as (? & ? & ?).
    repeat split; [done..|]. by apply completedAs_snoc.
  - intros Hcb. destruct (inv_emitted0 Hcb) as [? He]. split; [done|].
    intros j c Hj. by apply completedAs_snoc, He.
  - destruct shouldCollect; [|done]. destruct inv_collected0 as (? & Hc & ?).
    repeat split; [done| |done]. intros j c Hj. by apply completedAs_snoc, Hc.
  - intros r Hr. apply inv_resolved0. by destruct (main s).
  - intros Hm. by destruct (main s).
  - intros j o [Hl|[= <- <-]]%In_Complete_snoc.
    + destruct (inv_labels0 j o Hl). split; [done|set_solver].
    + split; [by apply inv_running0|set_solver].
  - rewrite firstFailure_snoc. destruct (firstFailure labels) as [m|].
    + by rewrite inv_failure0.
    + destruct (main s) as [| |r|m] eqn:Hm; [done|done| |by destruct (inv_failure0 m)].
      exfalso. destruct (inv_resolved0 r eq_refl) as (_ & _ & Hall).
      destruct (inv_fulfilled0 i) as (_ & ? & _); [|done].
      apply Hall. specialize (inv_running0 i Hi). lia.
  - rewrite length_app. unfold measure in *. fields. simpl length.
    rewrite (size_remove (running s) i) in inv_measure0 by done.
    destruct (main s); lia.
Qed.


(* a task that is still running has not been through the loop *)
Lemma running_not_past idle labels s i :
  Inv idle labels s -> i ∈ running s -> emittedCount s <= i.
Proof.
  intros I Hi. destruct (Nat.le_gt_cases (emittedCount s) i) as [|Hlt]; [done|].
  destruct (inv_past _ _ _ I i Hlt) as [Hd|Hf].
  - by destruct (inv_draining _ _ _ I i Hd).
  - by destruct (inv_fulfilled _ _ _ I i Hf) as (_ & ? & _).
Qed.

(* the task stores its result and its emitIfReady returns at once *)
Lemma Inv_complete_finish labels s i ci parsed :
  Inv true labels s -> i ∈ running s -> sorted !! i = Some ci ->
  Inv false (labels ++ [Complete i (Ok parsed)])
      (finish (Task i) (setPending i (classificationOf ci parsed) s)).
Proof.
  intros I Hi Hci. pose proof (running_not_past _ _ _ _ I Hi) as Hpast.
  destruct I.
  assert (Hnd : i ∉ draining s) by (intros Hd; by destruct (inv_draining0 i Hd)).
  assert (Hnf : i ∉ fulfilled s) by (intros Hf; by destruct (inv_fulfilled0 i Hf) as (_ & ? & _)).
  assert (D : draining s ∖ {[i]} = draining s) by set_solver.
  assert (E : emittedCount (finish (Task i) (setPending i (classificationOf ci parsed) s))
              = emittedCount s) by (unfold emittedCount; fields; by rewrite D).
  assert (C : completedAs (labels ++ [Complete i (Ok parsed)]) i (classificationOf ci parsed)).
  { exists ci, parsed. repeat split; [done|]. apply in_or_app. right. by left. }
  split; rewrite ?E; fields; rewrite ?D; try done.
  - intros j Hj. apply inv_running0. set_solver.
  - intros j Hj. destruct (inv_draining0 j Hj). split; [done|set_solver].
  - intros j [->%elem_of_singleton|Hj]%elem_of_union.
    + split; [by apply inv_running0|]. split; [set_solver|done].
    + destruct (inv_fulfilled0 j Hj) as (? & ? & ?). split; [done|]. split; [set_solver|done].
  - intros j c. destruct (decide (i = j)) as [<-|Hne].
    + rewrite lookup_insert_eq. intros [= <-]. split; [set_solver|]. by split.
    + rewrite lookup_insert_ne by done. intros Hj.
      destruct (inv_pending0 j c Hj) as (? & ? & ?).
      split; [set_solver|]. split; [done|]. by apply completedAs_snoc.
  - intros j Hj. destruct (decide (i = j)) as [<-|Hne].
    + right. by rewrite lookup_insert_eq.
    + rewrite lookup_insert_ne by done. apply inv_done0. set_solver.
  - intros j Hj. destruct (inv_past0 j Hj); set_solver.
  - intros Hcb. destruct (inv_emitted0 Hcb) as [? He]. split; [done|].
    intros j c Hj. by apply completedAs_snoc, He.
  - destruct shouldCollect; [|done]. destruct inv_collected0 as (? & Hc & ?).
    repeat split; [done| |done]. intros j c Hj. by apply completedAs_snoc, Hc.
  - intros r Hr. exfalso. destruct (inv_resolved0 r Hr) as (_ & _ & Hall).
    apply Hnf, Hall. specialize (inv_running0 i Hi). lia.
  - intros Hm j Hj. destruct (decide (i = j)) as [<-|Hne]; [set_solver|].
    destruct (inv_awaiting0 Hm j Hj) as [?|[?|?]]; set_solver.
  - intros j o [Hl|[= <- <-]]%In_Complete_snoc.
    + destruct (inv_labels0 j o Hl). split; [done|set_solver].
    + split; [by apply inv_running0|set_solver].
  - rewrite firstFailure_snoc. by destruct (firstFailure labels).
  - rewrite length_app. unfold measure in *. fields. simpl length. rewrite D.
    rewrite (size_remove (running s) i) in inv_measure0 by done. lia.
Qed.

(* the task stores the result the loop is waiting for, emits it and awaits the callback *)
Lemma Inv_complete_suspend labels s ci parsed :
  Inv true labels s -> nextEmitIndex s ∈ running s ->
  sorted !! nextEmitIndex s = Some ci -> hasCallback = true ->
  Inv true (labels ++ [Complete (nextEmitIndex s) (Ok parsed)])
      (suspend (Task (nextEmitIndex s))
         (emitOne (classificationOf ci parsed)
            (setPending (nextEmitIndex s) (classificationOf ci parsed) s))).
Proof.
  intros I Hi Hci Hcb. pose proof (running_not_past _ _ _ _ I Hi) as Hpast.
  remember (nextEmitIndex s) as i eqn:Hnext.
  assert (Hempty : draining s = ∅).
  { destruct (decide (draining s = ∅)) as [|Hne]; [done|].
    exfalso. unfold emittedCount in Hpast. rewrite decide_False in Hpast by done. lia. }
  assert (Es : emittedCount s = i) by (rewrite Hnext; by apply emittedCount_idle).
  destruct I.
  assert (Hnf : i ∉ fulfilled s) by (intros Hf; by destruct (inv_fulfilled0 i Hf) as (_ & ? & _)).
  assert (E : emittedCount (suspend (Task i)
                (emitOne (classificationOf ci parsed)
                   (setPending i (classificationOf ci parsed) s))) = S i).
  { rewrite (emittedCount_busy _ i); [by fields; rewrite Hnext|fields; set_solver]. }
  assert (C : completedAs (labels ++ [Complete i (Ok parsed)]) i (classificationOf ci parsed)).
  { exists ci, parsed. repeat split; [done|]. apply in_or_app. right. by left. }
  assert (Hlt : i < length sorted) by (by eapply lookup_lt_Some).
  rewrite Es, Hempty in *. split; rewrite ?E; fields; rewrite <- ?Hnext, ?Hempty, ?Hcb; try done.
  - intros j Hj. apply inv_running0. set_solver.
  - intros j Hj. assert (j = i) as -> by set_solver.
    split; [by apply inv_running0|set_solver].
  - intros j Hj. destruct (inv_fulfilled0 j Hj) as (? & ? & ?).
    split; [done|]. split; [set_solver|]. set_solver.
  - intros j k Hj Hk. set_solver.
  - intros j c Hj. apply lookup_delete_Some in Hj as [Hne Hj].
    rewrite lookup_insert_ne in Hj by done.
    destruct (inv_pending0 j c Hj) as (? & ? & ?).
    split; [set_solver|]. split; [lia|]. by apply completedAs_snoc.
  - intros j Hj. destruct (decide (j = i)) as [->|Hne]; [left; lia|].
    destruct (inv_done0 j) as [?|Hs]; [set_solver|left; lia|].
    right. rewrite lookup_delete_ne by done. by rewrite lookup_insert_ne.
  - intros j Hj. destruct (decide (j = i)) as [->|Hne]; [set_solver|].
    destruct (inv_past0 j) as [?|?]; [lia|set_solver..].
  - intros _ Hd. set_solver.
  - intros _. destruct (inv_emitted0 Hcb) as [Hlen He]. rewrite length_app. simpl length.
    split; [lia|]. intros j c Hj. apply lookup_snoc_Some in Hj as [[_ Hj]|[Hj <-]].
    + by apply completedAs_snoc, He.
    + by replace j with i by lia.
  - destruct shouldCollect; [|done]. destruct inv_collected0 as (Hlen & Hc & Hce).
    rewrite length_app. simpl length. split; [lia|]. split; [|by intros _; rewrite Hce].
    intros j c Hj. apply lookup_snoc_Some in Hj as [[_ Hj]|[Hj <-]].
    + by apply completedAs_snoc, Hc.
    + by replace j with i by lia.
  - intros r Hr. exfalso. destruct (inv_resolved0 r Hr) as (_ & _ & Hall). by apply Hnf, Hall.
  - intros Hm j Hj. destruct (decide (i = j)) as [<-|Hne]; [set_solver|].
    destruct (inv_awaiting0 Hm j Hj) as [?|[?|?]]; set_solver.
  - intros j o [Hl|[= <- <-]]%In_Complete_snoc.
    + destruct (inv_labels0 j o Hl). split; [done|set_solver].
    + split; [by apply inv_running0|set_solver].
  - rewrite firstFailure_snoc. by destruct (firstFailure labels).
  - rewrite length_app. unfold measure in *. fields. simpl length.
    rewrite <- Hnext, ?Hempty. rewrite <- ?Hnext, Hempty, size_empty in inv_measure0.
    rewrite (size_remove (running s) i) in inv_measure0 by done.
    replace ({[i]} ∪ ∅ : gset nat) with ({[i]} : gset nat) by set_solver.
    rewrite size_singleton. lia.
Qed.

(* one turn of the while loop when no callback is awaited *)
Lemma Inv_loop_body labels s ready :
  Inv false labels s -> hasCallback = false ->
  pending s !! nextEmitIndex s = Some ready ->
  Inv false labels (advance (emitOne ready s)).
Proof.
  intros I Hcb Hready. destruct I. destruct (inv_sync0 Hcb) as [Hempty Hem].
  assert (Es : emittedCount s = nextEmitIndex s) by (by apply emittedCount_idle).
  assert (E : emittedCount (advance (emitOne ready s)) = S (nextEmitIndex s))
    by (by apply emittedCount_idle).
  destruct (inv_pending0 _ _ Hready) as (Hin & _ & Hcomp).
  assert (Hlt : nextEmitIndex s < length sorted).
  { destruct Hcomp as (ci & ? & Hci & _). by eapply lookup_lt_Some. }
  rewrite Es in *.
  split; rewrite ?E; fields; rewrite ?Hcb; try done.
  - intros j c Hj. apply lookup_delete_Some in Hj as [Hne Hj].
    destruct (inv_pending0 j c Hj) as (? & ? & ?). split; [done|]. split; [lia|done].
  - intros j Hj. destruct (decide (j = nextEmitIndex s)) as [->|Hne]; [left; lia|].
    destruct (inv_done0 j Hj) as [?|?]; [left; lia|right]. by rewrite lookup_delete_ne.
  - intros j Hj. destruct (decide (j = nextEmitIndex s)) as [->|Hne]; [done|].
    apply inv_past0. lia.
  - destruct shouldCollect; [|done]. destruct inv_collected0 as (Hlen & Hc & Hce).
    rewrite length_app. simpl length. split; [lia|]. split; [|done].
    intros j c Hj. apply lookup_snoc_Some in Hj as [[_ Hj]|[Hj <-]]; [by apply Hc|].
    by replace j with (nextEmitIndex s) by lia.
  - intros r Hr. destruct (inv_resolved0 r Hr) as (_ & ? & _). lia.
  - unfold measure in *. fields. lia.
Qed.

Lemma finish_drainAll fuel i s :
  finish (Task i) (drainAll fuel s) = drainAll fuel (finish (Task i) s).
Proof.
  revert s. induction fuel as [|fuel IH]; intros s; simpl.
  - by destruct (pending s !! nextEmitIndex s).
  - destruct (pending s !! nextEmitIndex s); [|done]. by rewrite IH.
Qed.

(* the loop without a callback ends with nothing left to emit *)
Lemma Inv_drainAll labels fuel s :
  Inv false labels s -> hasCallback = false -> size (pending s) <= fuel ->
  Inv true labels (drainAll fuel s).
Proof.
  revert s. induction fuel as [|fuel IH]; intros s I Hcb Hsize; simpl.
  - destruct (pending s !! nextEmitIndex s) as [ready|] eqn:Hready.
    + assert (Hp : pending s = ∅) by (apply map_size_empty_inv; lia).
      by rewrite Hp, lookup_empty in Hready.
    + by apply Inv_upgrade.
  - destruct (pending s !! nextEmitIndex s) as [ready|] eqn:Hready.
    + apply IH; [by apply Inv_loop_body|done|]. fields.
      pose proof (map_size_delete (nextEmitIndex s) (pending s)) as Hd.
      rewrite Hready in Hd. simpl in Hd. lia.
    + by apply Inv_upgrade.
Qed.

(* while a callback is awaited, the result the loop will want next is not yet there
   or is still in pending; nothing at nextEmitIndex itself *)
Lemma pending_next_busy idle labels s :
  Inv idle labels s -> draining s <> ∅ -> pending s !! nextEmitIndex s = None.
Proof.
  intros I Hne. destruct (pending s !! nextEmitIndex s) as [c|] eqn:Hc; [|done].
  destruct (inv_pending _ _ _ I _ _ Hc) as (_ & Hle & _).
  unfold emittedCount in Hle. rewrite decide_False in Hle by done. lia.
Qed.

Lemma Inv_complete_ok labels s i ci parsed :
  Inv true labels s -> i ∈ running s -> sorted !! i = Some ci ->
  Inv true (labels ++ [Complete i (Ok parsed)])
      (emitIfReady (Task i) (setPending i (classificationOf ci parsed) s)).
Proof.
  intros I Hi Hci. unfold emitIfReady. destruct hasCallback eqn:Hcb.
  - cbn [pending nextEmitIndex setPending].
    destruct (decide (i = nextEmitIndex s)) as [->|Hne].
    + rewrite lookup_insert_eq. by apply Inv_complete_suspend.
    + rewrite lookup_insert_ne by done.
      assert (Hnone : pending s !! nextEmitIndex s = None).
      { destruct (decide (draining s = ∅)) as [He|He].
        - by apply (inv_idle _ _ _ I).
        - by eapply pending_next_busy. }
      rewrite Hnone. apply Inv_upgrade; [by apply Inv_complete_finish|].
      intros _. fields. by rewrite lookup_insert_ne.
  - rewrite finish_drainAll. apply Inv_drainAll; [by apply Inv_complete_finish|done|].
    by fields.
Qed.

(* the callback returns and the loop of task i goes on *)
Lemma Inv_resume_task labels s i :
  Inv true labels s -> i ∈ draining s ->
  Inv true (labels ++ [Resume (Task i)]) (emitIfReady (Task i) (advance s)).
Proof.
  intros I Hi.
  assert (Hcb : hasCallback = true).
  { destruct hasCallback eqn:Hcb; [done|].
    destruct (inv_sync _ _ _ I Hcb) as [He _]. set_solver. }
  assert (Hd : draining s = {[i]}).
  { apply set_eq. intros j. rewrite elem_of_singleton. split; [|by intros ->].
    intros Hj. by apply (inv_one _ _ _ I). }
  assert (Es : emittedCount s = S (nextEmitIndex s)) by (by apply (emittedCount_busy _ i)).
  unfold emitIfReady. rewrite Hcb. cbn [pending nextEmitIndex advance].
  destruct I. rewrite Es in *.
  destruct (inv_draining0 i Hi) as [Hiq Hir].
  assert (Hif : i ∉ fulfilled s) by (intros Hf; destruct (inv_fulfilled0 i Hf) as (_ & _ & ?); done).
  destruct (pending s !! S (nextEmitIndex s)) as [ready|] eqn:Hready.
  - destruct (inv_pending0 _ _ Hready) as (Hin & _ & Hcomp).
    assert (Hlt : S (nextEmitIndex s) < length sorted).
    { destruct Hcomp as (ci & ? & Hci & _). by eapply lookup_lt_Some. }
    assert (D : ({[i]} ∪ draining s : gset nat) = draining s) by set_solver.
    assert (E : emittedCount (suspend (Task i) (emitOne ready (advance s)))
                = S (S (nextEmitIndex s))).
    { rewrite (emittedCount_busy _ i); [done|fields; set_solver]. }
    split; rewrite ?E; fields; rewrite ?D, ?Hcb; try done.
    + intros j c Hj. apply lookup_delete_Some in Hj as [Hne Hj].
      destruct (inv_pending0 j c Hj) as (? & ? & ?).
      split; [done|]. split; [lia|]. by apply completedAs_snoc.
    + intros j Hj. destruct (decide (j = S (nextEmitIndex s))) as [->|Hne]; [left; lia|].
      destruct (inv_done0 j Hj) as [?|?]; [left; lia|right]. by rewrite lookup_delete_ne.
    + intros j Hj. destruct (decide (j = S (nextEmitIndex s))) as [->|Hne]; [done|].
      apply inv_past0. lia.
    + intros _ He. set_solver.
    + intros _. destruct (inv_emitted0 Hcb) as [Hlen He]. rewrite length_app. simpl length.
      split; [lia|]. intros j c Hj. apply lookup_snoc_Some in Hj as [[_ Hj]|[Hj <-]].
      * by apply completedAs_snoc, He.
      * apply completedAs_snoc. by replace j with (S (nextEmitIndex s)) by lia.
    + destruct shouldCollect; [|done]. destruct inv_collected0 as (Hlen & Hc & Hce).
      rewrite length_app. simpl length. split; [lia|]. split; [|by intros _; rewrite Hce].
      intros j c Hj. apply lookup_snoc_Some in Hj as [[_ Hj]|[Hj <-]].
      * by apply completedAs_snoc, Hc.
      * apply completedAs_snoc. by replace j with (S (nextEmitIndex s)) by lia.
    + intros r Hr. destruct (inv_resolved0 r Hr) as (_ & ? & _). lia.
    + intros j o [Hl|[=]]%In_Complete_snoc. by apply (inv_labels0 j o).
    + rewrite firstFailure_snoc. by destruct (firstFailure labels).
    + rewrite length_app. unfold measure in *. fields. simpl length. rewrite D. lia.
  - assert (D : draining s ∖ {[i]} = ∅) by set_solver.
    assert (E : emittedCount (finish (Task i) (advance s)) = S (nextEmitIndex s)).
    { rewrite emittedCount_idle; [done|by fields]. }
    split; rewrite ?E; fields; rewrite ?D; try done.
    + intros j [->%elem_of_singleton|Hj]%elem_of_union.
      * split; [done|]. split; [done|set_solver].
      * destruct (inv_fulfilled0 j Hj) as (? & ? & ?). split; [done|]. split; [done|set_solver].
    + intros Hs. destruct (inv_sync0 Hs). set_solver.
    + intros j c Hj. destruct (inv_pending0 j c Hj) as (? & ? & ?).
      split; [set_solver|]. split; [done|]. by apply completedAs_snoc.
    + intros j Hj. apply inv_done0. set_solver.
    + intros j Hj. destruct (inv_past0 j Hj); set_solver.
    + intros _. destruct (inv_emitted0 Hcb) as [? He]. split; [done|].
      intros j c Hj. by apply completedAs_snoc, He.
    + destruct shouldCollect; [|done]. destruct inv_collected0 as (? & Hc & ?).
      repeat split; [done| |done]. intros j c Hj. by apply completedAs_snoc, Hc.
    + intros r Hr. destruct (inv_resolved0 r Hr) as (? & ? & Hall).
      split; [done|]. split; [done|]. intros j Hj. set_solver.
    + intros Hm j Hj. destruct (inv_awaiting0 Hm j Hj) as [?|[?|?]]; set_solver.
    + intros j o [Hl|[=]]%In_Complete_snoc. by apply (inv_labels0 j o).
    + rewrite firstFailure_snoc. by destruct (firstFailure labels).
    + rewrite length_app. unfold measure in *. fields. simpl length. rewrite D, size_empty.
      rewrite Hd, size_singleton in inv_measure0. lia.
Qed.

Lemma drainAll_idle fuel s : pending s !! nextEmitIndex s = None -> drainAll fuel s = s.
Proof. intros H. destruct fuel; simpl; by rewrite H. Qed.

(* every task has returned: nothing is left to emit and analyze returns *)
Lemma Inv_all_fulfilled labels s :
  Inv true labels s -> main s = AwaitingTasks ->
  (forall i, i < length sorted -> i ∈ fulfilled s) ->
  emitIfReady Main s = finish Main s /\ Inv true (labels ++ [AllFulfilled]) (finish Main s).
Proof.
  intros I Hm Hall.
  assert (Hd : draining s = ∅).
  { apply set_eq. intros j. split; [|set_solver]. intros Hj.
    destruct (inv_draining _ _ _ I j Hj) as [Hq _].
    pose proof (inv_queued _ _ _ I).
    destruct (inv_fulfilled _ _ _ I j) as (_ & _ & ?); [apply Hall; lia|done]. }
  assert (Hr : running s = ∅).
  { apply set_eq. intros j. split; [|set_solver]. intros Hj.
    pose proof (inv_running _ _ _ I j Hj). pose proof (inv_queued _ _ _ I).
    destruct (inv_fulfilled _ _ _ I j) as (_ & ? & _); [apply Hall; lia|done]. }
  assert (Hnone : pending s !! nextEmitIndex s = None) by (by apply (inv_idle _ _ _ I)).
  assert (Es : emittedCount s = nextEmitIndex s) by (by apply emittedCount_idle).
  assert (Hn : nextEmitIndex s = length sorted).
  { pose proof (inv_count _ _ _ I) as Hc. rewrite Es in Hc.
    destruct (decide (nextEmitIndex s = length sorted)) as [|Hne]; [done|]. exfalso.
    destruct (inv_done _ _ _ I (nextEmitIndex s)) as [?|[c Hc']].
    - right. apply Hall. lia.
    - lia.
    - by rewrite Hnone in Hc'. }
  split.
  { unfold emitIfReady. rewrite Hnone. rewrite drainAll_idle by done. by destruct hasCallback. }
  destruct I.
  assert (E : emittedCount (finish Main s) = emittedCount s) by done.
  split; rewrite ?E; fields; try done.
  - intros j c Hj. destruct (inv_pending0 j c Hj) as (? & ? & ?).
    repeat split; [done..|]. by apply completedAs_snoc.
  - intros Hcb. destruct (inv_emitted0 Hcb) as [? He]. split; [done|].
    intros j c Hj. by apply completedAs_snoc, He.
  - destruct shouldCollect; [|done]. destruct inv_collected0 as (? & Hc & ?).
    repeat split; [done| |done]. intros j c Hj. by apply completedAs_snoc, Hc.
  - intros r [= <-]. split; [done|]. split; [lia|done].
  - intros j o [Hl|[=]]%In_Complete_snoc. by apply (inv_labels0 j o).
  - rewrite firstFailure_snoc. destruct (firstFailure labels); [congruence|done].
  - rewrite length_app. unfold measure in *. fields. simpl length. rewrite Hm in inv_measure0. lia.
Qed.

Lemma Inv_step labels s l s' :
  Inv true labels s -> step s l s' -> Inv true (labels ++ [l]) s'.
Proof.
  intros I Hstep. destruct Hstep.
  - by apply Inv_start.
  - by apply Inv_complete_ok.
  - by apply Inv_throw.
  - by apply Inv_resume_task.
  - by destruct (inv_main _ _ _ I).
  - destruct (Inv_all_fulfilled labels s) as [-> ?]; done.
Qed.

Lemma Inv_run labels s : run initial labels s -> Inv true labels s.
Proof.
  intros Hrun. remember initial as s0 eqn:Hs0. induction Hrun as [|s0 labels s' l s'' _ IH Hstep].
  - subst. apply Inv_initial.
  - eapply Inv_step; [by apply IH|done].
Qed.

(** *** What has been emitted stays emitted *)

Definition extends (s s' : Pipeline) : Prop :=
  emitted s `prefix_of` emitted s' /\ collected s `prefix_of` collected s'.

Lemma extends_refl s : extends s s.
Proof. by split. Qed.

Lemma extends_trans s1 s2 s3 : extends s1 s2 -> extends s2 s3 -> extends s1 s3.
Proof. intros [? ?] [? ?]. split; by etrans. Qed.

Lemma extends_emitOne ready s : extends s (emitOne ready s).
Proof.
  split; fields.
  - destruct hasCallback; [by apply prefix_app_r|done].
  - destruct shouldCollect; [by apply prefix_app_r|done].
Qed.

Lemma extends_drainAll fuel s : extends s (drainAll fuel s).
Proof.
  revert s. induction fuel as [|fuel IH]; intros s; simpl.
  - destruct (pending s !! nextEmitIndex s); apply extends_refl.
  - destruct (pending s !! nextEmitIndex s) as [ready|]; [|apply extends_refl].
    eapply extends_trans; [|apply IH]. apply (extends_emitOne ready s).
Qed.

Lemma extends_emitIfReady who s : extends s (emitIfReady who s).
Proof.
  unfold emitIfReady. destruct hasCallback eqn:Hcb.
  - destruct (pending s !! nextEmitIndex s) as [ready|]; [|by destruct who].
    eapply extends_trans; [apply (extends_emitOne ready)|]. by destruct who.
  - eapply extends_trans; [apply (extends_drainAll (size (pending s)))|]. by destruct who.
Qed.

Lemma extends_step s l s' : step s l s' -> extends s s'.
Proof.
  intros [].
  - by split.
  - eapply extends_trans; [|apply extends_emitIfReady]. by split.
  - by split.
  - eapply extends_trans; [|apply extends_emitIfReady]. by split.
  - eapply extends_trans; [|apply extends_emitIfReady]. by split.
  - apply extends_emitIfReady.
Qed.

Lemma extends_run s labels s' : run s labels s' -> extends s s'.
Proof.
  induction 1 as [|s labels s' l s'' _ IH Hstep]; [apply extends_refl|].
  eapply extends_trans; [done|by eapply extends_step].
Qed.

Lemma run_app s labels s' labels' s'' :
  run s labels s' -> run s' labels' s'' -> run s (labels ++ labels') s''.
Proof.
  intros H1 H2. induction H2 as [|s' labels' s2 l s3 _ IH Hstep].
  - by rewrite List.app_nil_r.
  - rewrite List.app_assoc. eapply run_step; [by apply IH|done].
Qed.


(** *** Progress *)

(* what the pipeline does by itself, as opposed to the completion of a
   call of classifyComment *)
Definition internal (l : Label) : Prop :=
  match l with Complete _ _ => False | _ => True end.

Lemma progress labels s :
  1 <= concurrency -> Inv true labels s -> main s = AwaitingTasks ->
  running s <> ∅ \/ exists l s', internal l /\ step s l s'.
Proof.
  intros Hc I Hm.
  destruct (decide (running s = ∅)) as [Hr|]; [|by left]. right.
  destruct (decide (draining s = ∅)) as [Hd|Hd].
  - destruct (decide (queued s < length sorted)) as [Hq|Hq].
    + exists (Start (queued s)), (startTask s). split; [done|].
      apply step_start; [done|]. rewrite Hr, Hd, size_empty. lia.
    + exists AllFulfilled, (emitIfReady Main s). split; [done|].
      apply step_all_fulfilled; [done|]. intros i Hi.
      pose proof (inv_queued _ _ _ I).
      destruct (inv_awaiting _ _ _ I Hm i) as [?|[?|?]]; [lia|set_solver..|done].
  - apply set_choose_L in Hd as [i Hi].
    exists (Resume (Task i)), (emitIfReady (Task i) (advance s)). split; [done|].
    by apply step_resume_task.
Qed.


(** *** The steps as a function, to replay a given schedule *)

Definition stepTo (l : Label) (s : Pipeline) : option Pipeline :=
  match l with
  | Start index =>
      if decide (index = queued s /\ queued s < length sorted
                 /\ size (running s) + size (draining s) < concurrency)
      then Some (startTask s) else None
  | Complete index outcome =>
      if decide (index ∈ running s) then
        match outcome with
        | Ok parsed =>
            c ← sorted !! index;
            Some (emitIfReady (Task index) (setPending index (classificationOf c parsed) s))
        | Throw message => Some (reject index message s)
        end
      else None
  | Resume (Task index) =>
      if decide (index ∈ draining s)
      then Some (emitIfReady (Task index) (advance s)) else None
  | Resume Main =>
      match main s with
      | FinalDrain => Some (emitIfReady Main (advance s))
      | _ => None
      end
  | AllFulfilled =>
      match main s with
      | AwaitingTasks =>
          if forallb (fun i => bool_decide (i ∈ fulfilled s)) (seq 0 (length sorted))
          then Some (emitIfReady Main s) else None
      | _ => None
      end
  end.

Definition replay (labels : list Label) (s : Pipeline) : option Pipeline :=
  foldl (fun acc l => acc ≫= stepTo l) (Some s) labels.

Lemma stepTo_step l s s' : stepTo l s = Some s' -> step s l s'.
Proof.
  destruct l as [index|index [parsed|message]|[index|]|]; simpl.
  - destruct (decide _) as [(-> & ? & ?)|]; [|done]. intros [= <-]. by apply step_start.
  - destruct (decide _); [|done]. destruct (sorted !! index) as [c|] eqn:Hc; [|done].
    simpl. intros [= <-]. by apply step_complete_ok.
  - destruct (decide _); [|done]. intros [= <-]. by apply step_complete_throw.
  - destruct (decide _); [|done]. intros [= <-]. by apply step_resume_task.
  - destruct (main s) eqn:Hm; try done. intros [= <-]. by apply step_resume_main.
  - destruct (main s) eqn:Hm; try done.
    destruct (forallb _ _) eqn:Hall; [|done]. intros [= <-].
    apply step_all_fulfilled; [done|]. intros i Hi.
    rewrite forallb_forall in Hall. specialize (Hall i).
    rewrite bool_decide_eq_true in Hall. apply Hall, in_seq. lia.
Qed.

Lemma replay_run labels s s' : replay labels s = Some s' -> run s labels s'.
Proof.
  unfold replay. revert s'. induction labels as [|l labels IH] using rev_ind; intros s'.
  - simpl. intros [= <-]. apply run_nil.
  - rewrite foldl_app. simpl.
    destruct (foldl _ _ labels) as [s1|]; [|done]. simpl. intros Hstep.
    eapply run_step; [by apply IH|by apply stepTo_step].
Qed.

(** *** What the invariant says about the two lists *)

(* a list whose item at each index was made from the comment at that index *)
Lemma follows_sorted labels (l : list CommentClassification) :
  (forall j c, l !! j = Some c -> completedAs labels j c) ->
  map comment l = take (length l) sorted.
Proof.
  intros Hl. apply list_eq. intros j. rewrite list_lookup_fmap.
  destruct (l !! j) as [c|] eqn:Hj; simpl.
  - rewrite lookup_take_lt by (by eapply lookup_lt_Some).
    destruct (Hl j c Hj) as (ci & parsed & -> & -> & _). done.
  - symmetry. apply lookup_take_ge. by apply lookup_ge_None.
Qed.

Lemma emitted_follows_sorted labels s :
  run initial labels s -> hasCallback = true ->
  map comment (emitted s) = take (length (emitted s)) sorted.
Proof.
  intros I%Inv_run Hcb. apply (follows_sorted labels).
  by destruct (inv_emitted _ _ _ I Hcb).
Qed.

Lemma collected_follows_sorted labels s :
  run initial labels s -> shouldCollect = true ->
  map comment (collected s) = take (length (collected s)) sorted.
Proof.
  intros I%Inv_run Hsc. apply (follows_sorted labels).
  pose proof (inv_collected _ _ _ I) as Hc. rewrite Hsc in Hc. by destruct Hc as (_ & ? & _).
Qed.

Lemma resolved_all labels s r :
  run initial labels s -> main s = Resolved r ->
  categories r = cats
  /\ classifications r = (if shouldCollect then collected s else [])
  /\ (hasCallback = true -> length (emitted s) = length sorted)
  /\ (shouldCollect = true -> length (collected s) = length sorted).
Proof.
  intros I%Inv_run Hr. destruct (inv_resolved _ _ _ I r Hr) as (-> & Hn & _).
  split; [done|]. split; [done|]. split.
  - intros Hcb. destruct (inv_emitted _ _ _ I Hcb) as [-> _]. done.
  - intros Hsc. pose proof (inv_collected _ _ _ I) as Hc. rewrite Hsc in Hc.
    destruct Hc as (-> & _). done.
Qed.

Lemma firstFailure_In labels message :
  firstFailure labels = Some message -> exists i, In (Complete i (Throw message)) labels.
Proof.
  unfold firstFailure. induction labels as [|l labels IH]; [done|].
  destruct l as [|k [|m]| |]; simpl.
  1,2,4,5: intros [i ?]%IH; exists i; by right.
  intros [= ->]. exists k. by left.
Qed.

Lemma In_firstFailure labels i message :
  In (Complete i (Throw message)) labels -> is_Some (firstFailure labels).
Proof.
  unfold firstFailure. induction labels as [|l labels IH]; [done|].
  intros [->|Hin]; [by eexists|].
  destruct l as [|? [|m]| |]; simpl; eauto.
Qed.

Lemma firstFailure_app labels labels' message :
  firstFailure labels = Some message -> firstFailure (labels ++ labels') = Some message.
Proof.
  unfold firstFailure. rewrite omap_app.
  by destruct (omap _ labels).
Qed.

(* once a task has thrown, analyze is rejected with the first error thrown, for good *)
Lemma rejected_for_good labels s i message :
  run initial labels s -> In (Complete i (Throw message)) labels ->
  exists j first,
    firstFailure labels = Some first /\ In (Complete j (Throw first)) labels
    /\ main s = Rejected first
    /\ forall labels' s', run s labels' s' -> main s' = Rejected first.
Proof.
  intros Hrun [first Hf]%In_firstFailure.
  destruct (firstFailure_In _ _ Hf) as [j Hj]. exists j, first.
  split; [done|]. split; [done|]. split.
  - pose proof (inv_failure _ _ _ (Inv_run _ _ Hrun)) as H. by rewrite Hf in H.
  - intros labels' s' Hrun'.
    pose proof (inv_failure _ _ _ (Inv_run _ _ (run_app _ _ _ _ _ Hrun Hrun'))) as H.
    by rewrite (firstFailure_app _ _ _ Hf) in H.
Qed.

(* analyze returns only if no task has thrown *)
Lemma resolved_no_failure labels s r i o :
  run initial labels s -> main s = Resolved r -> In (Complete i o) labels ->
  exists parsed, o = Ok parsed.
Proof.
  intros Hrun Hr Hin. destruct o as [parsed|message]; [by eexists|].
  destruct (rejected_for_good _ _ _ _ Hrun Hin) as (_ & ? & _ & _ & Hm & _). congruence.
Qed.

End Pipeline.


(** ** analyze *)

(* the comparator of the sort in analyze: newest first *)
Definition newestFirst (a b : RedditComment) : Z := createdUtc b - createdUtc a.

Record AnalyzeOptions := {
  onClassification : bool;           (* a callback is given; it returns normally *)
  collectClassifications : option bool
}.

(* analyze up to the point where the tasks are made: it returns at once on no
   comments, fails if discoverCategories does, and otherwise runs the tasks
   over the sorted comments *)
Inductive Analyze :=
| Returns (result : AnalysisResult)
| Throws (message : string)
| Runs (cats : list CategoryDefinition) (sorted : list RedditComment) (shouldCollect : bool).

Definition analyze (comments : list RedditComment)
    (discoverCategories : Result (list CategoryDefinition)) (options : AnalyzeOptions)
    : Analyze :=
  match comments with
  | [] => Returns {| categories := []; classifications := [] |}
  | _ :: _ =>
      match discoverCategories with
      | Throw message => Throws message
      | Ok cats =>
          Runs cats (sort newestFirst comments)
               (default (negb (onClassification options)) (collectClassifications options))
      end
  end.

Lemma analyze_Runs comments discovered options cats sorted shouldCollect :
  analyze comments discovered options = Runs cats sorted shouldCollect ->
  sorted = sort newestFirst comments.
Proof.
  unfold analyze. destruct comments; [done|]. destruct discovered; [|done]. by intros [= _ <- _].
Qed.


(* three comments given oldest, newest, middle; two tasks at a time; the
   newest, which is index 0, completes last *)
Definition older : RedditComment :=
  {| id := "a"; body := "first"; createdUtc := 10; permalink := "/a"; subreddit := "s" |}.
Definition newer : RedditComment :=
  {| id := "b"; body := "second"; createdUtc := 30; permalink := "/b"; subreddit := "s" |}.
Definition middle : RedditComment :=
  {| id := "c"; body := "third"; createdUtc := 20; permalink := "/c"; subreddit := "s" |}.

Definition samplePayload : ClassificationPayload :=
  {| p_category := "pricing"; p_sentiment := Neutral; p_categoryConfidence := High;
     p_sentimentConfidence := Medium; p_summary := "about the price" |}.

Definition sampleOptions : AnalyzeOptions :=
  {| onClassification := true; collectClassifications := Some true |}.

Definition sampleLabels : list Label :=
  [Start 0; Start 1; Complete 1 (Ok samplePayload); Start 2; Complete 2 (Ok samplePayload);
   Complete 0 (Ok samplePayload); Resume (Task 0); Resume (Task 0); Resume (Task 0);
   AllFulfilled].

Definition sampleEnd : Pipeline :=
  Eval vm_compute in
    default initial (replay [newer; middle; older] [] 2 true true sampleLabels initial).

Lemma sampleEnd_eq :
  replay [newer; middle; older] [] 2 true true sampleLabels initial = Some sampleEnd.
Proof. vm_cast_no_check (eq_refl (Some sampleEnd)). Qed.


(** C6. A call of classifyComment on which the cache misses and the service
    gives no parsed output throws. When the call of any task throws, analyze
    rejects with the error of the first task that threw (that very error when
    no other task threw), it stays rejected whatever the other tasks do
    afterwards, and it returns no result. *)
Theorem analyze_rejects_when_a_task_throws
    (localeCompare : string -> string -> Z) (digest : string -> string -> string)
    {Store : Type} `{CacheClient Store} (Service : Type)
    (responsesParse : Service -> string -> string
                      -> Result (option ClassificationPayload) * Service)
    (JSON_stringify : option ClassificationPayload -> string)
    (JSON_parse : string -> Result (option ClassificationPayload))
    (buildPrompt : RedditComment -> list CategoryDefinition -> Z -> Z -> Result string)
    (keyword model productDescription : string)
    (sorted : list RedditComment) (cats : list CategoryDefinition)
    (concurrency : nat) (hasCallback shouldCollect : bool)
    (labels : list Label) (s : Pipeline) (i : nat) (message : string) :
  run sorted cats concurrency hasCallback shouldCollect initial labels s ->
  In (Complete i (Throw message)) labels ->
  (forall c st prompt service',
     sorted !! i = Some c ->
     buildPrompt c cats (Z.of_nat i + 1)%Z (Z.of_nat (length sorted)) = Ok prompt ->
     read (LlmCache.cache st) LlmCache.defaultNamespace
       (LlmCache.checksumOf localeCompare digest
          (cachePayload keyword model productDescription c cats)) = Ok None ->
     responsesParse (LlmCache.world st) model prompt = (Ok None, service') ->
     fst (classifyComment localeCompare digest Service responsesParse JSON_stringify
            JSON_parse buildPrompt keyword model productDescription
            c cats (Z.of_nat i + 1)%Z (Z.of_nat (length sorted)) st)
     = Throw noParsedOutput)
  /\ (exists j first,
        firstFailure labels = Some first /\ In (Complete j (Throw first)) labels
        /\ main s = Rejected first
        /\ forall labels' s',
             run sorted cats concurrency hasCallback shouldCollect s labels' s' ->
             main s' = Rejected first)
  /\ ((forall j m, In (Complete j (Throw m)) labels -> m = message) ->
      main s = Rejected message)
  /\ (forall r, main s <> Resolved r).
Proof.
  intros Hrun Hin. split.
  { intros c st prompt service' _ Hp Hr Hs.
    by apply (classifyComment_no_parsed_output _ _ _ _ _ _ _ _ _ _ _ _ _ _ _ prompt service'). }
  destruct (rejected_for_good _ _ _ _ _ _ _ _ _ Hrun Hin) as (j & first & Hf & Hj & Hm & Hlater).
  split; [by exists j, first|]. split.
  - intros Honly. by rewrite <- (Honly j first Hj).
  - intros r. congruence.
Qed.

(* the second of two tasks gets no parsed output on a cache miss; the first
   completes afterwards and its classification is still emitted *)
Definition failingLabels : list Label :=
  [Start 0; Start 1; Complete 1 (Throw noParsedOutput); Complete 0 (Ok samplePayload);
   Resume (Task 0)].

Definition failedEnd : Pipeline :=
  Eval vm_compute in
    default initial (replay [newer; middle] [] 2 true true failingLabels initial).

Lemma failedEnd_eq :
  replay [newer; middle] [] 2 true true failingLabels initial = Some failedEnd.
Proof. vm_cast_no_check (eq_refl (Some failedEnd)). Qed.

(* a service that never gives parsed output *)
Definition silentService (calls : nat) (model prompt : string)
    : Result (option ClassificationPayload) * nat := (Ok None, S calls).

Definition emptyCacheState : LlmCache.State (S := FileCache) nat :=
  {| LlmCache.cache := emptyFileCache; LlmCache.world := 0; LlmCache.log := [] |}.

Definition silentCall : Result CommentClassification :=
  fst (classifyComment codeUnitCompare textDigest nat silentService
         (fun _ => "null") (fun _ => Ok None) (fun _ _ _ _ => Ok "prompt")
         "clickup" "gpt" "a product" middle [] (Z.of_nat 1 + 1)%Z (Z.of_nat 2) emptyCacheState).

Lemma analyze_rejects_when_a_task_throws_witness :
  silentCall = Throw noParsedOutput /\ main failedEnd = Rejected noParsedOutput.
Proof.
  destruct (analyze_rejects_when_a_task_throws codeUnitCompare textDigest nat silentService
              (fun _ => "null") (fun _ => Ok None) (fun _ _ _ _ => Ok "prompt")
              "clickup" "gpt" "a product" [newer; middle] [] 2 true true
              failingLabels failedEnd 1 noParsedOutput
              (replay_run _ _ _ _ _ _ _ _ failedEnd_eq))
    as (T & _ & R & _).
  - right. right. left. reflexivity.
  - split.
    + exact (T middle emptyCacheState "prompt" 1 eq_refl eq_refl eq_refl eq_refl).
    + apply R. intros j m [E|[E|[E|[E|[E|[]]]]]]; try discriminate E.
      by injection E as _ <-.
Defined.

End Analyzer.
